(** * deep-agents-ui: session-layer logic, embedded and verified

    A shallow embedding of the three pieces of session logic of the UI:

    - the question queue of the [useQuestions] hook,
    - the subagent message demultiplexer and the session controller of
      the [useChat] hook,
    - the tool-call reconstruction done by the [ChatMessage] component.

    Conventions of the embedding.
    - A JavaScript string is a [string] (a sequence of UTF-8 bytes).
    - An optional property ([x?: T], or a property that may be
      [undefined]) is an [option].
    - A value of type [any] that the code inspects dynamically is a
      [JValue].
    - [new Date()], [Date.now()] and [uuidv4()] read the environment:
      the readings are arguments of the embedded operations.
    - A callback supplied by the caller is recorded by presence (a
      [bool]) and every invocation is appended to a log of calls.
    - [setState(f)] of React applies the updater [f] to the current
      state; updaters queued by one operation are applied in order.
      React may run an updater more than once on the same state (it
      runs it twice under StrictMode) and keeps the state of one run;
      what an updater does besides computing the state happens at
      every run. *)

From Stdlib Require QArith.
From Stdlib Require Import Ascii.
From stdpp Require Import gmap strings list fin_maps pretty sorting.

Abbreviation Q := QArith_base.Q.

(** ** JavaScript values *)

Module JS.

#[warnings="-register-all"]
Inductive JValue : Type :=
  | JUndefined
  | JNull
  | JBool (b : bool)
  | JNum (n : Z)
  | JStr (s : string)
  | JArr (items : list JValue)
  | JObj (fields : list (string * JValue)).

(** ToBoolean: [undefined], [null], [false], [0] and the empty string
    are falsy, every array and object is truthy. *)
Definition truthy (v : JValue) : bool :=
  match v with
  | JUndefined | JNull => false
  | JBool b => b
  | JNum n => negb (n =? 0)%Z
  | JStr s => negb (String.eqb s "")
  | JArr _ | JObj _ => true
  end.

(** Truthiness of an optional string property. *)
Definition truthyStr (o : option string) : bool :=
  match o with
  | Some s => negb (String.eqb s "")
  | None => false
  end.

(** [o || d] for an optional string. *)
Definition orStr (o : option string) (d : string) : string :=
  match o with
  | Some s => if String.eqb s "" then d else s
  | None => d
  end.

Fixpoint lookupField (k : string) (fs : list (string * JValue)) : JValue :=
  match fs with
  | [] => JUndefined
  | (k', v) :: fs' => if String.eqb k' k then v else lookupField k fs'
  end.

(** [{...o, [k]: v}] on the property list of an object: an own
    property keeps its place, a new one goes last. *)
Fixpoint setField (k : string) (v : JValue) (fs : list (string * JValue))
  : list (string * JValue) :=
  match fs with
  | [] => [(k, v)]
  | (k', v') :: fs' =>
      if String.eqb k' k then (k, v) :: fs' else (k', v') :: setField k v fs'
  end.

(** A [Map<string, V>]: entries in insertion order, keys distinct. *)
Definition JsMap (V : Type) : Type := list (string * V).

Fixpoint mapGet {V} (k : string) (m : JsMap V) : option V :=
  match m with
  | [] => None
  | (k', v) :: m' => if String.eqb k' k then Some v else mapGet k m'
  end.

Definition mapHas {V} (k : string) (m : JsMap V) : bool :=
  match mapGet k m with
  | Some _ => true
  | None => false
  end.

Fixpoint mapSet {V} (k : string) (v : V) (m : JsMap V) : JsMap V :=
  match m with
  | [] => [(k, v)]
  | (k', v') :: m' =>
      if String.eqb k' k then (k, v) :: m' else (k', v') :: mapSet k v m'
  end.

(** [Array.from(m.values())] *)
Definition mapValues {V} (m : JsMap V) : list V := snd <$> m.

End JS.

(** ** The question queue: the [useQuestions] hook *)

Module Questions.

Inductive QuestionPriority := blocking | high | medium | nice_to_have.
Inductive QuestionStatus := pending | answered | skipped.

#[global] Instance QuestionPriority_eq_dec : EqDecision QuestionPriority.
Proof. solve_decision. Defined.
#[global] Instance QuestionStatus_eq_dec : EqDecision QuestionStatus.
Proof. solve_decision. Defined.

Record QuestionContext := {
  file : option string;
  lineNumber : option Z;
  branch : option string;
  skillLabels : option (list string);
  sessionId : option string;
  stepIndex : option Z
}.

(** [{}] *)
Definition emptyContext : QuestionContext :=
  {| file := None; lineNumber := None; branch := None;
     skillLabels := None; sessionId := None; stepIndex := None |}.

Record QuestionOption := {
  opt_id : string;
  opt_label : string;
  opt_description : option string
}.

(** Timestamps are milliseconds since the epoch; [confidence] is a
    rational number in [0, 1]. *)
Record Question := {
  id : string;
  text : string;
  priority : QuestionPriority;
  confidence : Q;
  status : QuestionStatus;
  context : QuestionContext;
  options : option (list QuestionOption);
  answer : option string;
  answeredAt : option Z;
  createdAt : Z;
  subject : option string
}.

(** The optional second argument of [addQuestion]. *)
Record AddOptions := {
  add_priority : option QuestionPriority;
  add_confidence : option Q;
  add_context : option QuestionContext;
  add_options : option (list QuestionOption);
  add_subject : option string
}.

(** An item of an interrupt payload: every field but [text] may be
    missing. [in_createdAt] is the instant [new Date(q.createdAt)]
    denotes. *)
Record QuestionInput := {
  in_id : option string;
  in_text : string;
  in_priority : option QuestionPriority;
  in_confidence : option Q;
  in_context : option QuestionContext;
  in_options : option (list QuestionOption);
  in_subject : option string;
  in_createdAt : option Z
}.

(** [QuestionsInterruptData]; [None] stands for a payload whose
    [questions] is missing or is not an array. *)
Record QuestionsInterruptData := {
  questions_in : option (list QuestionInput)
}.

(** [UseQuestionsOptions]: which callbacks the caller supplied. *)
Record UseQuestionsOptions := {
  onAnswer : bool;
  onResumeWithAnswers : bool
}.

(** Invocations of the caller's callbacks. *)
Inductive Call :=
  | OnAnswerCall (questionId answer : string)
  | OnResumeCall (answers : gmap string string).

(** The hook's state [questions], the callbacks handed to
    [setTimeout(_, 0)] that have not run yet (each is
    [() => onResumeWithAnswers(answers)], kept as its [answers]), and
    the log of callback invocations so far. *)
Record State := {
  questions : list Question;
  timers : list (gmap string string);
  calls : list Call
}.

Definition initial : State :=
  {| questions := []; timers := []; calls := [] |}.

Definition setQuestions (f : list Question → list Question) (st : State) : State :=
  {| questions := f (questions st); timers := timers st; calls := calls st |}.

Definition invoke (c : Call) (st : State) : State :=
  {| questions := questions st; timers := timers st; calls := calls st ++ [c] |}.

Definition setTimeout (answers : gmap string string) (st : State) : State :=
  {| questions := questions st; timers := timers st ++ [answers];
     calls := calls st |}.

(** The next turn of the event loop runs the queued timer callbacks,
    oldest first. *)
Definition runTimers (st : State) : State :=
  {| questions := questions st; timers := [];
     calls := calls st ++ (OnResumeCall <$> timers st) |}.

(** *** Derived state *)

Definition isPending (q : Question) : bool := bool_decide (status q = pending).

Definition isBlockingPending (q : Question) : bool :=
  bool_decide (priority q = blocking) && bool_decide (status q = pending).

(** [q.status === "answered" && q.answer] *)
Definition hasAnswer (q : Question) : bool :=
  bool_decide (status q = answered) && JS.truthyStr (answer q).

Definition pendingQuestions (qs : list Question) : list Question :=
  List.filter isPending qs.

Definition answeredQuestions (qs : list Question) : list Question :=
  List.filter (λ q, bool_decide (status q = answered)
                    || bool_decide (status q = skipped)) qs.

Definition hasBlockingQuestions (qs : list Question) : bool :=
  existsb (λ q, bool_decide (priority q = blocking)) (pendingQuestions qs).

Definition blockingCount (qs : list Question) : nat :=
  length (List.filter (λ q, bool_decide (priority q = blocking))
                      (pendingQuestions qs)).

(** *** Actions *)

Definition addQuestion (uuid : string) (now : Z) (text : string)
    (opts : option AddOptions) (st : State) : string * State :=
  let question :=
    {| id := uuid;
       text := text;
       priority := default medium (opts ≫= add_priority);
       confidence := default (QArith_base.Qmake 1 2) (opts ≫= add_confidence);
       status := pending;
       context := default emptyContext (opts ≫= add_context);
       options := opts ≫= add_options;
       answer := None;
       answeredAt := None;
       createdAt := now;
       subject := opts ≫= add_subject |} in
  (uuid, setQuestions (λ prev, prev ++ [question]) st).

(** The question built from the item at position [idx] of a payload;
    [uuid idx] and [now idx] are what [uuidv4()] and [new Date()]
    return if they are called for that item. *)
Definition fromInput (uuid : nat → string) (now : nat → Z)
    (idx : nat) (q : QuestionInput) : Question :=
  {| id := JS.orStr (in_id q) (uuid idx);
     text := in_text q;
     priority := default medium (in_priority q);
     confidence := default (QArith_base.Qmake 1 2) (in_confidence q);
     status := pending;
     context := default emptyContext (in_context q);
     options := in_options q;
     answer := None;
     answeredAt := None;
     createdAt := default (now idx) (in_createdAt q);
     subject := in_subject q |}.

Definition addQuestionsFromInterrupt (uuid : nat → string) (now : nat → Z)
    (data : QuestionsInterruptData) (st : State) : State :=
  match questions_in data with
  | None => st
  | Some items =>
      let newQuestions := imap (fromInput uuid now) items in
      setQuestions
        (λ prev,
           let existingIds : gset string := list_to_set (id <$> prev) in
           let unique :=
             List.filter (λ q, negb (bool_decide (id q ∈ existingIds)))
                         newQuestions in
           prev ++ unique)
        st
  end.

(** [{ ...q, status: "answered", answer, answeredAt: new Date() }] *)
Definition markAnswered (a : string) (now : Z) (q : Question) : Question :=
  {| id := id q; text := text q; priority := priority q;
     confidence := confidence q; status := answered; context := context q;
     options := options q; answer := Some a; answeredAt := Some now;
     createdAt := createdAt q; subject := subject q |}.

(** [{ ...q, status: "skipped", answeredAt: new Date() }] *)
Definition markSkipped (now : Z) (q : Question) : Question :=
  {| id := id q; text := text q; priority := priority q;
     confidence := confidence q; status := skipped; context := context q;
     options := options q; answer := answer q; answeredAt := Some now;
     createdAt := createdAt q; subject := subject q |}.

(** The [filter]/[reduce] that builds the answers record. *)
Definition collectAnswers (qs : list Question) : gmap string string :=
  foldl (λ acc q, <[id q := default ""%string (answer q)]> acc) ∅
        (List.filter hasAnswer qs).

(** [answerQuestion]. The callback of the [map] evaluates [new Date()]
    for every question whose id matches: [now idx] is what it returns
    for the question at index [idx], in the run of the first updater
    whose state React keeps. The second updater calls [setTimeout]
    itself, so a timer is queued at each of its runs: [reruns] is the
    number of times React runs it again after the first time (none
    when it runs updaters once, one under StrictMode). *)
Definition answerQuestion (opts : UseQuestionsOptions) (reruns : nat)
    (now : nat → Z) (questionId a : string) (st : State) : State :=
  let st1 :=
    setQuestions
      (λ prev,
         imap (λ idx q, if bool_decide (id q = questionId)
                        then markAnswered a (now idx) q else q) prev)
      st in
  let st2 :=
    if onAnswer opts then invoke (OnAnswerCall questionId a) st1 else st1 in
  let prev := questions st2 in
  let stillBlocking := List.filter isBlockingPending prev in
  if bool_decide (length stillBlocking = 0) && onResumeWithAnswers opts
  then Nat.iter (S reruns) (setTimeout (collectAnswers prev)) st2
  else st2.

(** [skipQuestion]; [now idx] is what [new Date()] returns in the
    callback of the [map] for the question at index [idx]. *)
Definition skipQuestion (now : nat → Z) (questionId : string) (st : State)
    : State :=
  setQuestions
    (λ prev,
       imap (λ idx q, if bool_decide (id q = questionId)
                      then markSkipped (now idx) q else q) prev)
    st.

Definition clearAnswered (st : State) : State :=
  setQuestions (λ prev, List.filter isPending prev) st.

Definition reset (st : State) : State := setQuestions (λ _, []) st.

(** *** Utilities *)

Definition getUnansweredBlockingQuestions (st : State) : list Question :=
  List.filter isBlockingPending (questions st).

Definition getAllAnswers (st : State) : gmap string string :=
  collectAnswers (questions st).

Definition canProceed (st : State) : bool :=
  negb (existsb isBlockingPending (questions st)).

(** *** The states the hook can be in *)

(** The states reached from the initial one by the actions of the
    hook and by turns of the event loop. [uuidv4()] in [addQuestion]
    returns an id that no question of the set has. *)
Inductive reachable : State → Prop :=
  | reach_initial : reachable initial
  | reach_addQuestion uuid now text opts st :
      reachable st → uuid ∉ id <$> questions st →
      reachable (addQuestion uuid now text opts st).2
  | reach_addQuestionsFromInterrupt uuid now data st :
      reachable st → reachable (addQuestionsFromInterrupt uuid now data st)
  | reach_answerQuestion opts reruns now questionId a st :
      reachable st →
      reachable (answerQuestion opts reruns now questionId a st)
  | reach_skipQuestion now questionId st :
      reachable st → reachable (skipQuestion now questionId st)
  | reach_clearAnswered st : reachable st → reachable (clearAnswered st)
  | reach_reset st : reachable st → reachable (reset st)
  | reach_runTimers st : reachable st → reachable (runTimers st).

(** A pending question carries no answer and no answer time; an
    answered one carries both; a skipped one carries an answer time. *)
Definition stamped (q : Question) : Prop :=
  match status q with
  | pending => answer q = None ∧ answeredAt q = None
  | answered => is_Some (answer q) ∧ is_Some (answeredAt q)
  | skipped => is_Some (answeredAt q)
  end.

(** Questions that share an id share status and answer. *)
Definition coherent (qs : list Question) : Prop :=
  ∀ q1 q2, q1 ∈ qs → q2 ∈ qs → id q1 = id q2 →
           status q1 = status q2 ∧ answer q1 = answer q2.

End Questions.

(** ** The [useChat] hook: subagent demultiplexer and session controller *)

Module Chat.

Import JS.

(** A tool-call request embedded in an ai message. *)
Record ToolCallRequest := {
  tc_id : option string;
  tc_name : option string;
  tc_args : JValue
}.

(** A message of the stream, with the properties this code reads. *)
Record Message := {
  id : option string;
  type : option string;
  name : option string;
  content : JValue;
  tool_call_id : option string;
  tool_calls : option (list ToolCallRequest)
}.

(** [{ ...msg, id: msgId }] *)
Definition withId (msgId : string) (msg : Message) : Message :=
  {| id := Some msgId; type := type msg; name := name msg;
     content := content msg; tool_call_id := tool_call_id msg;
     tool_calls := tool_calls msg |}.

(** *** Stream events *)

(** The data of an update event: [model_messages] is
    [data.model?.messages], [messages] is [data.messages]. *)
Record UpdateData := {
  model_messages : option (list Message);
  messages : option (list Message)
}.

(** The payload of a debug event: [p_messages] is [payload.messages],
    [p_input_messages] is [payload.input?.messages], and [p_self] is
    the payload read as a message ([payload.type], [payload.id],
    [payload.content], ...). *)
Record DebugPayload := {
  p_messages : option (list Message);
  p_input_messages : option (list Message);
  p_self : Message
}.

Record DebugData := {
  d_type : option string;
  payload : option DebugPayload
}.

(** An event and the [options.namespace] it arrives with. *)
Inductive StreamEvent :=
  | UpdateEvent (data : UpdateData) (namespace : option (list string))
  | DebugEvent (data : DebugData) (namespace : option (list string)).

(** *** The tool-call id of a namespace segment *)

(** The line terminators that [.] of a regular expression refuses:
    LF, CR, and U+2028, U+2029 (in UTF-8 the bytes E2 80 A8 and
    E2 80 A9). *)
Fixpoint hasLineTerminator (s : string) : bool :=
  match s with
  | EmptyString => false
  | String c s' =>
      Ascii.eqb c "010"%char || Ascii.eqb c "013"%char
      || (Ascii.eqb c "226"%char
          && match s' with
             | String c1 (String c2 _) =>
                 Ascii.eqb c1 "128"%char
                 && (Ascii.eqb c2 "168"%char || Ascii.eqb c2 "169"%char)
             | _ => false
             end)
      || hasLineTerminator s'
  end.

Fixpoint stripPrefix (p s : string) : option string :=
  match p, s with
  | EmptyString, _ => Some s
  | String a p', String b s' =>
      if Ascii.eqb a b then stripPrefix p' s' else None
  | String _ _, EmptyString => None
  end.

(** [namespaceStr.match(/^tools:(.+)$/)]: the captured group, when
    the segment is [tools:] followed by one or more characters none
    of which is a line terminator. *)
Definition matchTools (namespaceStr : string) : option string :=
  match stripPrefix "tools:" namespaceStr with
  | Some rest =>
      if String.eqb rest "" || hasLineTerminator rest then None
      else Some rest
  | None => None
  end.

(** [toolCallIdMatch ? toolCallIdMatch[1] : namespaceStr] *)
Definition toolCallIdOf (namespaceStr : string) : string :=
  match matchTools namespaceStr with
  | Some captured => captured
  | None => namespaceStr
  end.

(** *** The store of one thread *)

Record Subagent := {
  subagentMessageIds : gset string;
  subagentMessages : JsMap (list Message)
}.

Definition emptySubagent : Subagent :=
  {| subagentMessageIds := ∅; subagentMessages := [] |}.

(** [existing.find((m) => m.id === msgId)], read as a truth value. *)
Definition findId (msgId : string) (existing : list Message) : bool :=
  existsb (λ m, bool_decide (id m = Some msgId)) existing.

(** The body that the three capture sites share: record the id, make
    sure the tool call has a list, and push the message unless the
    list already holds its id. *)
Definition track (toolCallId msgId : string) (msg : Message)
    (s : Subagent) : Subagent :=
  let ids := {[ msgId ]} ∪ subagentMessageIds s in
  let msgs :=
    if mapHas toolCallId (subagentMessages s) then subagentMessages s
    else mapSet toolCallId [] (subagentMessages s) in
  let existing := default [] (mapGet toolCallId msgs) in
  {| subagentMessageIds := ids;
     subagentMessages :=
       if findId msgId existing then msgs
       else mapSet toolCallId (existing ++ [withId msgId msg]) msgs |}.

(** [xs.forEach((x, idx) => ...)] as a state transformer. *)
Fixpoint forEachFrom {A S : Type} (f : A → nat → S → S)
    (xs : list A) (idx : nat) (s : S) : S :=
  match xs with
  | [] => s
  | x :: xs' => forEachFrom f xs' (Datatypes.S idx) (f x idx s)
  end.

Definition forEach {A S : Type} (f : A → nat → S → S) (xs : list A) : S → S :=
  forEachFrom f xs 0.

(** Readings of [Date.now()], by the place of the call: the loop (for
    a debug event, the position in [messageSources]; 2 for the
    payload captured directly) and the index of the message. *)
Definition Clock : Type := nat → nat → Z.

Definition updateFallbackId (toolCallId : string) (idx : nat) (t : Z) : string :=
  toolCallId +:+ "-msg-" +:+ pretty idx +:+ "-" +:+ pretty t.

Definition debugFallbackId (toolCallId : string) (idx : nat) (t : Z) : string :=
  "debug-" +:+ toolCallId +:+ "-msg-" +:+ pretty idx +:+ "-" +:+ pretty t.

Definition debugToolFallbackId (t : Z) : string :=
  "debug-tool-" +:+ pretty t.

Definition onUpdateEvent (now : Clock) (data : UpdateData)
    (namespace : option (list string)) (s : Subagent) : Subagent :=
  match namespace with
  | Some (namespaceStr :: _) =>
      let toolCallId := toolCallIdOf namespaceStr in
      let messages :=
        match model_messages data with
        | Some ms => Some ms
        | None => messages data
        end in
      match messages with
      | Some messages =>
          forEach
            (λ msg idx,
               let msgId :=
                 orStr (id msg) (updateFallbackId toolCallId idx (now 0 idx)) in
               track toolCallId msgId msg)
            messages s
      | None => s
      end
  | _ => s
  end.

(** [[payload?.messages, payload?.input?.messages].filter(Boolean)] *)
Definition messageSources (p : option DebugPayload) : list (list Message) :=
  match p with
  | Some p => option_list (p_messages p) ++ option_list (p_input_messages p)
  | None => []
  end.

Definition onDebugEvent (now : Clock) (data : DebugData)
    (namespace : option (list string)) (s : Subagent) : Subagent :=
  match namespace with
  | Some (namespaceStr :: _) =>
      let toolCallId := toolCallIdOf namespaceStr in
      let s1 :=
        forEach
          (λ messages src,
             forEach
               (λ msg idx,
                  let msgId :=
                    orStr (id msg)
                          (debugFallbackId toolCallId idx (now src idx)) in
                  track toolCallId msgId msg)
               messages)
          (messageSources (payload data)) s in
      match payload data with
      | Some p =>
          if bool_decide (type (p_self p) = Some "tool"%string) then
            let msg := p_self p in
            let msgId := orStr (id msg) (debugToolFallbackId (now 2 0)) in
            track toolCallId msgId msg s1
          else s1
      | None => s1
      end
  | _ => s
  end.

Definition handle (now : Clock) (ev : StreamEvent) : Subagent → Subagent :=
  match ev with
  | UpdateEvent data namespace => onUpdateEvent now data namespace
  | DebugEvent data namespace => onDebugEvent now data namespace
  end.

(** *** The stores of all threads *)

Record Store := {
  subagentMessageIdsByThread : gmap string (gset string);
  subagentMessagesByThread : gmap string (JsMap (list Message))
}.

Definition emptyStore : Store :=
  {| subagentMessageIdsByThread := ∅; subagentMessagesByThread := ∅ |}.

(** [threadId ?? "__new__"] *)
Definition currentThreadId (threadId : option string) : string :=
  default "__new__"%string threadId.

(** What a render of the hook does to the two refs: the current
    thread gets an empty set and an empty map if it has none. *)
Definition render (threadId : option string) (st : Store) : Store :=
  let tid := currentThreadId threadId in
  {| subagentMessageIdsByThread :=
       match subagentMessageIdsByThread st !! tid with
       | Some _ => subagentMessageIdsByThread st
       | None => <[tid := ∅]> (subagentMessageIdsByThread st)
       end;
     subagentMessagesByThread :=
       match subagentMessagesByThread st !! tid with
       | Some _ => subagentMessagesByThread st
       | None => <[tid := []]> (subagentMessagesByThread st)
       end |}.

(** The current thread's data, as the render hands it to the event
    handlers. *)
Definition current (threadId : option string) (st : Store) : Subagent :=
  let tid := currentThreadId threadId in
  {| subagentMessageIds := default ∅ (subagentMessageIdsByThread st !! tid);
     subagentMessages := default [] (subagentMessagesByThread st !! tid) |}.

(** The handlers mutate the set and the map of the thread in place. *)
Definition commit (threadId : option string) (s : Subagent) (st : Store) : Store :=
  let tid := currentThreadId threadId in
  {| subagentMessageIdsByThread :=
       <[tid := subagentMessageIds s]> (subagentMessageIdsByThread st);
     subagentMessagesByThread :=
       <[tid := subagentMessages s]> (subagentMessagesByThread st) |}.

(** An event that arrives while the hook is rendered for [threadId]. *)
Definition deliver (now : Clock) (threadId : option string)
    (ev : StreamEvent) (st : Store) : Store :=
  let st1 := render threadId st in
  commit threadId (handle now ev (current threadId st1)) st1.

(** The log of a tool call in a thread. *)
Definition logOf (tid toolCallId : string) (st : Store) : list Message :=
  default [] (subagentMessagesByThread st !! tid ≫= mapGet toolCallId).

(** *** Views of the demultiplexer used in the statements *)

(** The log of a tool call in the store of one thread; a tool call
    without an entry has the empty log. *)
Definition logs (s : Subagent) (toolCallId : string) : list Message :=
  default [] (mapGet toolCallId (subagentMessages s)).

Definition namespaceOf (ev : StreamEvent) : option (list string) :=
  match ev with
  | UpdateEvent _ namespace => namespace
  | DebugEvent _ namespace => namespace
  end.

(** The messages that the handler of an event walks through, in the
    order in which it does. *)
Definition candidates (ev : StreamEvent) : list Message :=
  match ev with
  | UpdateEvent data _ =>
      match model_messages data with
      | Some ms => ms
      | None => default [] (messages data)
      end
  | DebugEvent data _ =>
      concat (messageSources (payload data))
      ++ match payload data with
         | Some p =>
             if bool_decide (type (p_self p) = Some "tool"%string)
             then [p_self p] else []
         | None => []
         end
  end.

(** The event carries a message with the (non-empty) id [i] into the
    tool call [toolCallId]. *)
Definition carries (ev : StreamEvent) (toolCallId i : string) : Prop :=
  (∃ namespaceStr rest,
     namespaceOf ev = Some (namespaceStr :: rest)
     ∧ toolCallIdOf namespaceStr = toolCallId)
  ∧ i ≠ ""%string
  ∧ ∃ msg, msg ∈ candidates ev ∧ id msg = Some i.

(** A sequence of events, each with the clock readings of its
    handler, delivered in order. *)
Definition feed (evs : list (Clock * StreamEvent)) (s : Subagent) : Subagent :=
  foldl (λ s e, handle e.1 e.2 s) s evs.

(** Every log of [s] is an initial segment of the log of the same
    tool call in [s']. *)
Definition grows (s s' : Subagent) : Prop :=
  ∀ toolCallId, logs s toolCallId `prefix_of` logs s' toolCallId.

(** No log holds two messages with the same id. *)
Definition distinctIds (s : Subagent) : Prop :=
  ∀ toolCallId, NoDup (id <$> logs s toolCallId).

(** What handling messages taken from [from] for the tool call
    [toolCallId] may do to the logs: the other tool calls keep their
    entries, the log of [toolCallId] is extended by copies of messages
    of [from], and ids stay distinct. *)
Definition extendsWith (toolCallId : string) (from : list Message)
    (s s' : Subagent) : Prop :=
  (∀ k', toolCallId ≠ k' →
         mapGet k' (subagentMessages s') = mapGet k' (subagentMessages s))
  ∧ (∃ new, logs s' toolCallId = logs s toolCallId ++ new
            ∧ ∀ m', m' ∈ new → ∃ i m, m ∈ from ∧ m' = withId i m)
  ∧ (distinctIds s → distinctIds s').

(** *** The session controller *)

Record Checkpoint := {
  thread_id : string;
  checkpoint_ns : string;
  checkpoint_id : option string
}.

(** The first argument of [stream.submit]. *)
Inductive SubmitInput :=
  | InputUndefined
  | InputNull
  | InputMessages (messages : list Message).

(** [optimisticValues]: either the function that appends the new
    message to the previous ones, or a fixed list of messages. *)
Inductive OptimisticValues :=
  | AppendToPrevious (newMessage : Message)
  | ReplaceWith (messages : list Message).

Inductive Command :=
  | Goto (node : string)
  | Resume (value : JValue).

(** The second argument of [stream.submit]; [None] is a property that
    the object literal does not have. *)
Record SubmitOptions := {
  optimisticValues : option OptimisticValues;
  config : option (list (string * JValue));
  checkpoint : option Checkpoint;
  streamSubgraphs : option bool;
  interruptBefore : option (list string);
  interruptAfter : option (list string);
  command : option Command
}.

(** What an operation of the controller does to its collaborators. *)
Inductive Effect :=
  | Submit (input : SubmitInput) (options : SubmitOptions)
  | HistoryRevalidate
  | StopStream.

(** The options of the submissions among some effects. *)
Definition submissions (effects : list Effect) : list SubmitOptions :=
  omap (λ e, match e with Submit _ options => Some options | _ => None end)
       effects.

(** The arguments of the hook: [activeConfig] is
    [activeAssistant?.config], [onHistoryRevalidate] tells whether the
    callback was supplied. *)
Record Props := {
  activeConfig : option (list (string * JValue));
  onHistoryRevalidate : bool
}.

(** [onHistoryRevalidate?.()] *)
Definition revalidate (props : Props) : list Effect :=
  if onHistoryRevalidate props then [HistoryRevalidate] else [].

Definition sendMessage (props : Props) (uuid : string) (content : string)
    : list Effect :=
  let newMessage :=
    {| id := Some uuid; type := Some "human"%string; name := None;
       content := JStr content; tool_call_id := None; tool_calls := None |} in
  [Submit (InputMessages [newMessage])
     {| optimisticValues := Some (AppendToPrevious newMessage);
        config := Some (setField "recursion_limit" (JNum 100)
                                 (default [] (activeConfig props)));
        checkpoint := None;
        streamSubgraphs := Some true;
        interruptBefore := None;
        interruptAfter := None;
        command := None |}]
  ++ revalidate props.

Definition runSingleStep (props : Props) (messages : list Message)
    (checkpoint : option Checkpoint) (isRerunningSubagent : option bool)
    (optimisticMessages : option (list Message)) : list Effect :=
  match checkpoint with
  | Some cp =>
      [Submit InputUndefined
         {| optimisticValues := ReplaceWith <$> optimisticMessages;
            config := activeConfig props;
            checkpoint := Some cp;
            streamSubgraphs := Some true;
            interruptBefore :=
              if default false isRerunningSubagent then None
              else Some ["tools"%string];
            interruptAfter :=
              if default false isRerunningSubagent then Some ["tools"%string]
              else None;
            command := None |}]
  | None =>
      [Submit (InputMessages messages)
         {| optimisticValues := None;
            config := activeConfig props;
            checkpoint := None;
            streamSubgraphs := Some true;
            interruptBefore := Some ["tools"%string];
            interruptAfter := None;
            command := None |}]
  end.

Definition continueStream (props : Props) (hasTaskToolCall : option bool)
    : list Effect :=
  [Submit InputUndefined
     {| optimisticValues := None;
        config := Some (setField "recursion_limit" (JNum 100)
                                 (default [] (activeConfig props)));
        checkpoint := None;
        streamSubgraphs := Some true;
        interruptBefore :=
          if default false hasTaskToolCall then None
          else Some ["tools"%string];
        interruptAfter :=
          if default false hasTaskToolCall then Some ["tools"%string]
          else None;
        command := None |}]
  ++ revalidate props.

Definition markCurrentThreadAsResolved (props : Props) : list Effect :=
  [Submit InputNull
     {| optimisticValues := None; config := None; checkpoint := None;
        streamSubgraphs := None; interruptBefore := None;
        interruptAfter := None; command := Some (Goto "__end__") |}]
  ++ revalidate props.

Definition resumeInterrupt (props : Props) (value : JValue) : list Effect :=
  [Submit InputNull
     {| optimisticValues := None; config := None; checkpoint := None;
        streamSubgraphs := Some true; interruptBefore := None;
        interruptAfter := None; command := Some (Resume value) |}]
  ++ revalidate props.

Definition stopStream : list Effect := [StopStream].

(** Where a submission asks the run to halt. *)
Inductive HaltPoint := BeforeTools | AfterTools.

Definition haltPoint (options : SubmitOptions) : option HaltPoint :=
  match interruptBefore options, interruptAfter options with
  | Some ["tools"%string], None => Some BeforeTools
  | None, Some ["tools"%string] => Some AfterTools
  | _, _ => None
  end.

(** *** Further views of the demultiplexer *)

(** Every logged message has a non-empty id, and the set of seen ids
    holds it. *)
Definition recorded (s : Subagent) : Prop :=
  ∀ toolCallId m, m ∈ logs s toolCallId →
    ∃ i, id m = Some i ∧ i ≠ ""%string ∧ i ∈ subagentMessageIds s.

(** The map of logs has one entry for a tool call at most, and no
    entry is an empty log. *)
Definition wellKeyed (s : Subagent) : Prop :=
  NoDup (fst <$> subagentMessages s)
  ∧ ∀ toolCallId l, mapGet toolCallId (subagentMessages s) = Some l → l ≠ [].

End Chat.

(** ** Tool-call reconstruction: the [ChatMessage] component *)

Module ChatMessage.

Import JS.

Inductive ToolCallStatus := pending | completed | error | interrupted.

Record ToolCall := {
  id : option string;
  name : string;
  args : JValue;
  status : ToolCallStatus;
  result : option string
}.

Section Reconstruct.

(** Functions of the JavaScript runtime: [JSON.stringify(v)],
    [JSON.stringify(v, null, 2)], both applied here to values other
    than [undefined] only, and the conversion to a string that
    [Array.prototype.join] applies to an element that is not a string. *)
Variable JSON_stringify : JValue → string.
Variable JSON_stringify_pretty : JValue → string.
Variable ToString : JValue → string.

(** [typeof item === "string" ? item : item.text || JSON.stringify(item)]
    followed by the conversion of [join]; [None] when reading
    [item.text] throws a TypeError. *)
Definition itemText (item : JValue) : option string :=
  match item with
  | JStr s => Some s
  | JUndefined | JNull => None
  | JObj fields =>
      let t := lookupField "text" fields in
      Some (if truthy t
            then match t with JStr s => s | _ => ToString t end
            else JSON_stringify item)
  | JBool _ | JNum _ | JArr _ => Some (JSON_stringify item)
  end.

(** [resultContent] for the content of a tool result that was found;
    the outer [None] is a thrown TypeError, the inner one [undefined]. *)
Definition normalizeContent (content : JValue) : option (option string) :=
  match content with
  | JStr s => Some (Some s)
  | JArr items =>
      parts ← mapM itemText items;
      Some (Some (String.concat (String "010" EmptyString) parts))
  | _ =>
      if truthy content then Some (Some (JSON_stringify_pretty content))
      else Some None
  end.

(** [msg.type === "tool" && msg.tool_call_id] *)
Definition isToolResult (msg : Chat.Message) : bool :=
  bool_decide (Chat.type msg = Some "tool"%string)
  && truthyStr (Chat.tool_call_id msg).

(** The map [toolResults], filled in message order. *)
Definition toolResults (msgs : list Chat.Message) : gmap string Chat.Message :=
  foldl
    (λ acc msg,
       if isToolResult msg
       then <[default ""%string (Chat.tool_call_id msg) := msg]> acc
       else acc)
    ∅ msgs.

(** The record pushed for one request. *)
Definition toolCallOf (results : gmap string Chat.Message)
    (tc : Chat.ToolCallRequest) : option ToolCall :=
  let toolResult : option Chat.Message :=
    match Chat.tc_id tc with
    | Some i => results !! i
    | None => None
    end in
  resultContent ←
    match toolResult with
    | Some tr => normalizeContent (Chat.content tr)
    | None => Some None
    end;
  Some {| id := Chat.tc_id tc;
          name := orStr (Chat.tc_name tc) "unknown";
          args := if truthy (Chat.tc_args tc) then Chat.tc_args tc else JObj [];
          status := match toolResult with Some _ => completed | None => pending end;
          result := resultContent |}.

(** [msg.type === "ai" && msg.tool_calls && Array.isArray(msg.tool_calls)]:
    the requests of a message that the second loop walks through. *)
Definition requestsOf (msg : Chat.Message) : list Chat.ToolCallRequest :=
  if bool_decide (Chat.type msg = Some "ai"%string)
  then default [] (Chat.tool_calls msg)
  else [].

(** The array [subagentToolCalls] computed from [allSubagentMsgs];
    [None] when the computation throws. (For an empty collection the
    component returns before the loops; the array is empty as well.) *)
Definition subagentToolCalls (allSubagentMsgs : list Chat.Message)
    : option (list ToolCall) :=
  let results := toolResults allSubagentMsgs in
  foldl
    (λ acc msg,
       foldl (λ acc tc,
                calls ← acc; r ← toolCallOf results tc; Some (calls ++ [r]))
             acc (requestsOf msg))
    (Some []) allSubagentMsgs.

(** [Array.from(subagentMessages.values()).flat()] *)
Definition allSubagentMsgs (subagentMessages : option (JsMap (list Chat.Message)))
    : list Chat.Message :=
  match subagentMessages with
  | Some m => concat (mapValues m)
  | None => []
  end.

(** *** What the reconstruction is compared with *)

(** The tool-call requests of the ai messages, in message order. *)
Definition requests (msgs : list Chat.Message) : list Chat.ToolCallRequest :=
  concat (requestsOf <$> msgs).

(** The tool-role message that answers a request: the last one of the
    collection whose [tool_call_id] is the id of the request. *)
Definition resultFor (msgs : list Chat.Message) (tc : Chat.ToolCallRequest)
    : option Chat.Message :=
  match Chat.tc_id tc with
  | Some i =>
      last (List.filter
              (λ m, isToolResult m
                    && bool_decide (Chat.tool_call_id m = Some i))
              msgs)
  | None => None
  end.

(** The text that stands for one element of an array content: a
    string stands for itself, an object for its [text] when that is a
    non-empty string (converted to a string when it is another truthy
    value), and anything else for its dump. *)
Definition partOf (item : JValue) (part : string) : Prop :=
  match item with
  | JStr str => part = str
  | JObj fields =>
      match lookupField "text" fields with
      | JStr t => part = if decide (t = ""%string) then JSON_stringify item else t
      | t => part = if truthy t then ToString t else JSON_stringify item
      end
  | _ => part = JSON_stringify item
  end.

(** The result that stands for the content of a tool-role message. *)
Definition resultOf (content : JValue) (result : option string) : Prop :=
  match content with
  | JStr str => result = Some str
  | JArr items =>
      ∃ parts, Forall2 partOf items parts
               ∧ result = Some (String.concat (String "010" EmptyString) parts)
  | _ =>
      result = if truthy content then Some (JSON_stringify_pretty content)
               else None
  end.

(** Reading [item.text] does not throw. *)
Definition readable (item : JValue) : Prop :=
  item ≠ JUndefined ∧ item ≠ JNull.

End Reconstruct.

(** *** Subagents and tool boxes of a message *)

(** [v[k]] for a value that is not [null] or [undefined]: an own
    property of an object, [undefined] otherwise. *)
Definition getProp (v : JValue) (k : string) : JValue :=
  match v with
  | JObj fields => lookupField k fields
  | _ => JUndefined
  end.

Record SubAgent := {
  sa_id : option string;
  sa_name : string;
  subAgentName : JValue;
  input : JValue;
  output : option string;
  sa_status : ToolCallStatus
}.

(** The predicate of the [filter] that selects subagents:
    [name === "task" && t && t !== "" && t !== null] for
    [t = args["subagent_type"]]. *)
Definition isSubAgentCall (toolCall : ToolCall) : bool :=
  let t := getProp (args toolCall) "subagent_type" in
  bool_decide (name toolCall = "task"%string)
  && truthy t
  && negb (match t with JStr str => String.eqb str "" | _ => false end)
  && negb (match t with JNull => true | _ => false end).

(** The [map] after it; [output] is [{ result }] when the result is
    truthy, kept as the result itself. *)
Definition toSubAgent (toolCall : ToolCall) : SubAgent :=
  {| sa_id := id toolCall;
     sa_name := name toolCall;
     subAgentName := getProp (args toolCall) "subagent_type";
     input := args toolCall;
     output := if truthyStr (result toolCall) then result toolCall else None;
     sa_status := status toolCall |}.

Definition subAgents (toolCalls : list ToolCall) : list SubAgent :=
  toSubAgent <$> List.filter isSubAgentCall toolCalls.

(** The tool calls rendered as a [ToolCallBox]: the callback of the
    [map] returns [null] for a call named [task]. *)
Definition toolCallBoxes (toolCalls : list ToolCall) : list ToolCall :=
  omap (λ toolCall,
          if bool_decide (name toolCall = "task"%string) then None
          else Some toolCall)
       toolCalls.

(** *** Expanded and collapsed subagents *)

(** [expandedSubAgents[id] ?? true] *)
Definition isSubAgentExpanded (expandedSubAgents : gmap string bool)
    (i : string) : bool :=
  default true (expandedSubAgents !! i).

(** The updater of [toggleSubAgent]:
    [{ ...prev, [id]: prev[id] === undefined ? false : !prev[id] }]. *)
Definition toggleSubAgent (i : string) (prev : gmap string bool)
    : gmap string bool :=
  <[i := match prev !! i with
         | None => false
         | Some b => negb b
         end]> prev.

End ChatMessage.

(** ** Answering from a card: the [QuestionCard] component *)

Module QuestionCard.

(** The local state of a card. *)
Record CardState := {
  expanded : bool;
  answerText : string;
  selectedOption : option string
}.

(** [useState(!compact)], [useState("")], [useState(null)] *)
Definition initialCard (compact : bool) : CardState :=
  {| expanded := negb compact; answerText := ""; selectedOption := None |}.

(** [handleSubmitAnswer]: the call of [onAnswer] it makes, if any,
    and the state of the card afterwards. *)
Definition handleSubmitAnswer (question : Questions.Question)
    (st : CardState) : option (string * string) * CardState :=
  let answer :=
    match Questions.options question with
    | Some _ => selectedOption st
    | None => Some (answerText st)
    end in
  if JS.truthyStr answer
  then (Some (Questions.id question, default ""%string answer),
        {| expanded := expanded st; answerText := "";
           selectedOption := None |})
  else (None, st).

(** [handleKeyDown]: Enter without Shift submits. *)
Definition handleKeyDown (question : Questions.Question)
    (key : string) (shiftKey : bool) (st : CardState)
    : option (string * string) * CardState :=
  if bool_decide (key = "Enter"%string) && negb shiftKey
  then handleSubmitAnswer question st
  else (None, st).

(** A card whose [onAnswer] callback is [answerQuestion] of the
    queue (the panel hands a card the [onAnswer] it is given). *)
Definition submitToQueue (opts : Questions.UseQuestionsOptions)
    (reruns : nat) (now : nat → Z)
    (question : Questions.Question) (card : CardState)
    (st : Questions.State) : CardState * Questions.State :=
  match handleSubmitAnswer question card with
  | (Some (i, a), card') =>
      (card', Questions.answerQuestion opts reruns now i a st)
  | (None, card') => (card', st)
  end.

End QuestionCard.

(** ** Surfacing and grouping: the [QuestionsPanel] component *)

Module QuestionsPanel.

Import JS Questions.

(** [Array.prototype.sort] with a comparator, read through the sign of
    the number the comparator returns ([Lt] negative, [Eq] zero, [Gt]
    positive). The sort is stable, so for a comparator that orders
    its arguments consistently the result is the one of a stable
    insertion sort. *)
Fixpoint insertBy {A} (cmp : A → A → comparison) (x : A) (l : list A)
  : list A :=
  match l with
  | [] => [x]
  | y :: l' =>
      match cmp x y with
      | Gt => y :: insertBy cmp x l'
      | _ => x :: y :: l'
      end
  end.

Definition sortBy {A} (cmp : A → A → comparison) (l : list A) : list A :=
  foldr (insertBy cmp) [] l.

(** [priorityOrder] *)
Definition priorityOrder (p : QuestionPriority) : Z :=
  match p with
  | blocking => 0
  | high => 1
  | medium => 2
  | nice_to_have => 3
  end.

(** The comparator of [currentQuestion]: the sign of the difference of
    the priority ranks and, when that is zero, of
    [a.confidence - b.confidence]. *)
Definition compareUrgency (a b : Question) : comparison :=
  match Z.compare (priorityOrder (priority a)) (priorityOrder (priority b)) with
  | Eq => QArith_base.Qcompare (confidence a) (confidence b)
  | c => c
  end.

Definition pendingOf (questions : list Question) : list Question :=
  List.filter (λ q, bool_decide (status q = pending)) questions.

(** [currentQuestion]: [null] when nothing is pending, else [sorted[0]]. *)
Definition currentQuestion (questions : list Question) : option Question :=
  let pendingQuestions := pendingOf questions in
  if bool_decide (length pendingQuestions = 0) then None
  else head (sortBy compareUrgency pendingQuestions).

Record QuestionGroup := {
  g_subject : string;
  g_questions : list Question;
  count : nat
}.

(** [s.includes(sub)] *)
Fixpoint includes (sub s : string) : bool :=
  String.prefix sub s
  || match s with
     | EmptyString => false
     | String _ s' => includes sub s'
     end.

(** [s.split(c)] for a separator of one character. *)
Fixpoint split (c : ascii) (s : string) : list string :=
  match s with
  | EmptyString => [EmptyString]
  | String a s' =>
      if Ascii.eqb a c then EmptyString :: split c s'
      else match split c s' with
           | w :: ws => String a w :: ws
           | [] => [String a EmptyString]
           end
  end.

Section Subjects.

(** Functions of the runtime: [s.toLowerCase()], and
    [word.charAt(0).toUpperCase() + word.slice(1)]. *)
Variable toLowerCase : string → string.
Variable capitalize : string → string.

Definition detectSubject (question : Question) : string :=
  if truthyStr (subject question) then default ""%string (subject question)
  else
    let filePath := orStr (toLowerCase <$> file (context question)) "" in
    if includes "api" filePath || includes "client" filePath
    then "API Design"%string
    else if includes "test" filePath then "Testing Strategy"%string
    else if includes "perf" filePath || includes "cache" filePath
    then "Performance"%string
    else if includes "auth" filePath || includes "login" filePath
    then "Authentication"%string
    else if includes "component" filePath || includes "ui" filePath
    then "UI Components"%string
    else if includes "model" filePath || includes "schema" filePath
    then "Data Model"%string
    else
      let text := toLowerCase (text question) in
      if includes "api" text || includes "endpoint" text
         || includes "rest" text || includes "graphql" text
      then "API Design"%string
      else if includes "test" text || includes "mock" text
              || includes "coverage" text
      then "Testing Strategy"%string
      else if includes "performance" text || includes "optimize" text
              || includes "cache" text
      then "Performance"%string
      else
        match skillLabels (context question) with
        | Some (label :: _) =>
            String.concat " " (capitalize <$> split "_"%char label)
        | _ => "General"%string
        end.

End Subjects.

Section Groups.

(** [groupQuestions] calls [detectSubject]; the grouping is modelled
    for any such function. *)
Variable detectSubject : Question → string.

Definition hasBlocking (g : QuestionGroup) : bool :=
  existsb (λ q, bool_decide (priority q = blocking)) (g_questions g).

(** The comparator of [groupQuestions]. *)
Definition compareGroups (a b : QuestionGroup) : comparison :=
  let aBlocking := hasBlocking a in
  let bBlocking := hasBlocking b in
  if aBlocking && negb bBlocking then Lt
  else if negb aBlocking && bBlocking then Gt
  else Z.compare (Z.of_nat (count b)) (Z.of_nat (count a)).

(** The [Map] filled by the [forEach]. *)
Definition groupsMap (questions : list Question) : JsMap (list Question) :=
  foldl (λ groups q,
           let subject := detectSubject q in
           let existing := default [] (mapGet subject groups) in
           mapSet subject (existing ++ [q]) groups)
        [] questions.

Definition groupQuestions (questions : list Question) : list QuestionGroup :=
  sortBy compareGroups
    ((λ e : string * list Question,
        {| g_subject := e.1; g_questions := e.2; count := length e.2 |})
       <$> groupsMap questions).

(** [groupedQuestions]: the groups of the pending questions other
    than the current one, compared by id. *)
Definition groupedQuestions (questions : list Question) : list QuestionGroup :=
  let current := currentQuestion questions in
  groupQuestions
    (List.filter
       (λ q, match current with
             | Some c => negb (bool_decide (id q = id c))
             | None => true
             end)
       (pendingOf questions)).

End Groups.

End QuestionsPanel.

(** ** Concrete data used by the examples below *)

Module Samples.

Definition question (i : string) (p : Questions.QuestionPriority)
    (s : Questions.QuestionStatus) (a : option string) : Questions.Question :=
  {| Questions.id := i;
     Questions.text := "Use REST or GraphQL?";
     Questions.priority := p;
     Questions.confidence := QArith_base.Qmake 1 2;
     Questions.status := s;
     Questions.context := Questions.emptyContext;
     Questions.options := None;
     Questions.answer := a;
     Questions.answeredAt := None;
     Questions.createdAt := 0;
     Questions.subject := None |}.

Definition queue (qs : list Questions.Question) : Questions.State :=
  {| Questions.questions := qs; Questions.timers := []; Questions.calls := [] |}.

Definition callbacks : Questions.UseQuestionsOptions :=
  {| Questions.onAnswer := true; Questions.onResumeWithAnswers := true |}.

(** An item of an interrupt payload that carries an id and a text. *)
Definition item (i t : string) : Questions.QuestionInput :=
  {| Questions.in_id := Some i; Questions.in_text := t;
     Questions.in_priority := None; Questions.in_confidence := None;
     Questions.in_context := None; Questions.in_options := None;
     Questions.in_subject := None; Questions.in_createdAt := None |}.

(** A message with an id, a type and a textual content. *)
Definition message (i t c : string) : Chat.Message :=
  {| Chat.id := Some i; Chat.type := Some t; Chat.name := None;
     Chat.content := JS.JStr c; Chat.tool_call_id := None;
     Chat.tool_calls := None |}.

Definition clock : Chat.Clock := λ _ _, 1700000000000%Z.

(** An update event and a debug event that both carry the message
    [m1] under the namespace [tools:call_1]. *)
Definition updateWithM1 : Chat.StreamEvent :=
  Chat.UpdateEvent
    {| Chat.model_messages := None;
       Chat.messages := Some [message "m1" "ai" "searching"] |}
    (Some ["tools:call_1"%string]).

Definition debugWithM1 : Chat.StreamEvent :=
  Chat.DebugEvent
    {| Chat.d_type := Some "task"%string;
       Chat.payload :=
         Some {| Chat.p_messages := None;
                 Chat.p_input_messages :=
                   Some [message "m1" "ai" "searching"];
                 Chat.p_self :=
                   {| Chat.id := None; Chat.type := None; Chat.name := None;
                      Chat.content := JS.JUndefined;
                      Chat.tool_call_id := None;
                      Chat.tool_calls := None |} |} |}
    (Some ["tools:call_1"%string]).

(** The scenario of the specification: an ai message that requests
    the tool call [tc1] and the tool-role message that answers it. *)
Definition searchRequest : Chat.ToolCallRequest :=
  {| Chat.tc_id := Some "tc1"%string; Chat.tc_name := Some "search"%string;
     Chat.tc_args := JS.JObj [("q"%string, JS.JStr "x")] |}.

Definition aiWithRequest : Chat.Message :=
  {| Chat.id := Some "m1"%string; Chat.type := Some "ai"%string;
     Chat.name := None; Chat.content := JS.JUndefined;
     Chat.tool_call_id := None; Chat.tool_calls := Some [searchRequest] |}.

Definition toolAnswer (c : JS.JValue) : Chat.Message :=
  {| Chat.id := Some "m2"%string; Chat.type := Some "tool"%string;
     Chat.name := None; Chat.content := c;
     Chat.tool_call_id := Some "tc1"%string; Chat.tool_calls := None |}.

(** A stand-in for a function of the runtime, where an example needs
    one to be named; the sample data never has it called. *)
Definition stringify : JS.JValue → string := λ _, "{}"%string.

(** What [new Date()] returns for the question at each index of a
    [map]: a later time for each. *)
Definition dates : nat → Z := λ idx, (1700000000000 + Z.of_nat idx)%Z.

(** Readings of a clock that differ from those of [clock]. *)
Definition laterClock : Chat.Clock := λ _ _, 1700000000999%Z.

End Samples.

(** * Properties of the question queue *)

Section QuestionsFacts.

Import Questions.

Implicit Types (st : State) (q : Question) (qs : list Question).
Implicit Types (opts : UseQuestionsOptions).

Lemma isBlockingPending_spec q :
  isBlockingPending q = true ↔ status q = pending ∧ priority q = blocking.
Proof.
  unfold isBlockingPending.
  rewrite andb_true_iff, !bool_decide_eq_true. tauto.
Qed.

Lemma hasAnswer_spec q :
  hasAnswer q = true ↔
  status q = answered ∧ ∃ v, answer q = Some v ∧ v ≠ ""%string.
Proof.
  unfold hasAnswer, JS.truthyStr.
  rewrite andb_true_iff, bool_decide_eq_true.
  destruct (answer q) as [v|].
  - rewrite negb_true_iff, String.eqb_neq. split.
    + intros [? ?]. eauto.
    + intros [? (v' & [= <-] & ?)]. done.
  - split; [intros [_ [=]] | intros [_ (v & [=] & _)]].
Qed.

Lemma existsb_false_iff {A} (f : A → bool) (l : list A) :
  existsb f l = false ↔ ∀ x, x ∈ l → f x = false.
Proof.
  induction l as [|y l IH]; simpl.
  - split; [intros _ x Hx; inversion Hx | done].
  - rewrite orb_false_iff, IH. split.
    + intros [Hy Hl] x Hx. apply elem_of_cons in Hx as [->|Hx]; auto.
    + intros H. split; [apply H; left | intros x Hx; apply H; by right].
Qed.

Lemma filter_nil_iff {A} (f : A → bool) (l : list A) :
  length (List.filter f l) = 0 ↔ ∀ x, x ∈ l → f x = false.
Proof.
  induction l as [|y l IH]; simpl.
  - split; [intros _ x Hx; inversion Hx | done].
  - destruct (f y) eqn:Hy; simpl.
    + split; [done|]. intros H. specialize (H y (list_elem_of_here _ _)).
      congruence.
    + rewrite IH. split.
      * intros Hl x Hx. apply elem_of_cons in Hx as [->|Hx]; auto.
      * intros H x Hx. apply H. by right.
Qed.

Ltac elem_snoc :=
  apply elem_of_app;
  first [ by left | right; by apply list_elem_of_singleton ].

Lemma elem_of_List_filter {A} (f : A → bool) (l : list A) x :
  x ∈ List.filter f l ↔ x ∈ l ∧ f x = true.
Proof. rewrite !list_elem_of_In. apply filter_In. Qed.

Lemma imap_unchanged {A} (f : nat → A → A) (l : list A) :
  (∀ k x, x ∈ l → f k x = x) → imap f l = l.
Proof.
  revert f. induction l as [|y l IH]; intros f H; [done|].
  simpl. f_equal.
  - apply H, list_elem_of_here.
  - apply IH. intros k x Hx. apply H. by right.
Qed.

(** Calling [setTimeout] with the same callback [n] times over. *)
Lemma iter_setTimeout n answers st :
  Nat.iter n (setTimeout answers) st =
  {| questions := questions st;
     timers := timers st ++ replicate n answers;
     calls := calls st |}.
Proof.
  induction n as [|n IH].
  - simpl. rewrite app_nil_r. by destruct st.
  - rewrite replicate_S_end, app_assoc. simpl. by rewrite IH.
Qed.

(** [answerQuestion] in one piece: the questions of the kept run of
    the first updater, one timer for each run of the second updater
    when it schedules at all, and the per-answer callback. *)
Lemma answerQuestion_unfold opts reruns now i a st :
  answerQuestion opts reruns now i a st =
  let prev :=
    imap (λ idx q, if bool_decide (id q = i)
                   then markAnswered a (now idx) q else q) (questions st) in
  {| questions := prev;
     timers :=
       timers st ++
       (if bool_decide (length (List.filter isBlockingPending prev) = 0)
           && onResumeWithAnswers opts
        then replicate (S reruns) (collectAnswers prev) else []);
     calls := calls st ++ (if onAnswer opts then [OnAnswerCall i a] else []) |}.
Proof.
  unfold answerQuestion. cbv zeta. rewrite iter_setTimeout.
  destruct (onAnswer opts); simpl;
    match goal with |- context [if ?c then _ else _] => destruct c end;
    simpl; by rewrite ?app_nil_r.
Qed.

(** The questions after [answerQuestion] and after [skipQuestion]. *)
Lemma answerQuestion_questions opts reruns now i a st :
  questions (answerQuestion opts reruns now i a st) =
  imap (λ idx q, if bool_decide (id q = i)
                 then markAnswered a (now idx) q else q) (questions st).
Proof. by rewrite answerQuestion_unfold. Qed.

Lemma skipQuestion_questions now i st :
  questions (skipQuestion now i st) =
  imap (λ idx q, if bool_decide (id q = i)
                 then markSkipped (now idx) q else q) (questions st).
Proof. reflexivity. Qed.

(** What [answerQuestion] hands to [setTimeout]: when the caller
    supplied [onResumeWithAnswers] and no pending blocking question is
    left, one callback at each run of the updater that schedules it;
    none otherwise. *)
Lemma answerQuestion_timers opts reruns now i a st :
  let st' := answerQuestion opts reruns now i a st in
  timers st' =
  timers st ++
    (if canProceed st' && onResumeWithAnswers opts
     then replicate (S reruns) (collectAnswers (questions st')) else []).
Proof.
  intros st'.
  assert (Hc : canProceed st' =
               bool_decide (length (List.filter isBlockingPending
                                                (questions st')) = 0)).
  { unfold canProceed. apply eq_true_iff_eq.
    rewrite negb_true_iff, bool_decide_eq_true.
    by rewrite existsb_false_iff, filter_nil_iff. }
  rewrite Hc. subst st'. by rewrite answerQuestion_unfold.
Qed.

(** The callbacks invoked before [answerQuestion] returns: the
    per-answer one only. *)
Lemma answerQuestion_calls opts reruns now i a st :
  calls (answerQuestion opts reruns now i a st) =
  calls st ++ (if onAnswer opts then [OnAnswerCall i a] else []).
Proof. by rewrite answerQuestion_unfold. Qed.

(** Lookups in the record built by [collectAnswers]. *)
Lemma collectAnswers_snoc qs q :
  collectAnswers (qs ++ [q]) =
  if hasAnswer q
  then <[id q := default ""%string (answer q)]> (collectAnswers qs)
  else collectAnswers qs.
Proof.
  unfold collectAnswers. rewrite List.filter_app. simpl.
  destruct (hasAnswer q); simpl.
  - by rewrite foldl_app.
  - by rewrite app_nil_r.
Qed.

Lemma collectAnswers_lookup_Some qs k v :
  collectAnswers qs !! k = Some v →
  ∃ q, q ∈ qs ∧ hasAnswer q = true ∧ id q = k ∧ answer q = Some v.
Proof.
  induction qs as [|q qs IH] using rev_ind.
  - unfold collectAnswers. simpl. by rewrite lookup_empty.
  - rewrite collectAnswers_snoc.
    destruct (hasAnswer q) eqn:Hq.
    + destruct (decide (id q = k)) as [<-|Hne].
      * rewrite lookup_insert_eq. intros [= <-].
        exists q. split_and!; [elem_snoc | done | done |].
        apply hasAnswer_spec in Hq as (_ & v & -> & _). done.
      * rewrite lookup_insert_ne by done. intros H.
        destruct (IH H) as (q' & ? & ? & ? & ?).
        exists q'. split_and!; [elem_snoc | done..].
    + intros H. destruct (IH H) as (q' & ? & ? & ? & ?).
      exists q'. split_and!; [elem_snoc | done..].
Qed.

Lemma collectAnswers_lookup_elem qs q :
  q ∈ qs → hasAnswer q = true →
  ∃ q', q' ∈ qs ∧ hasAnswer q' = true ∧ id q' = id q
        ∧ collectAnswers qs !! id q = answer q'.
Proof.
  induction qs as [|x qs IH] using rev_ind; [by inversion 1|].
  intros Hin Hq. rewrite collectAnswers_snoc.
  destruct (hasAnswer x) eqn:Hx.
  - destruct (decide (id x = id q)) as [Heq|Hne].
    + exists x. split_and!; [elem_snoc | done | done |].
      rewrite Heq, lookup_insert_eq.
      apply hasAnswer_spec in Hx as (_ & v & -> & _). done.
    + rewrite lookup_insert_ne by done.
      apply elem_of_app in Hin as [Hin|Hin];
        [|apply list_elem_of_singleton in Hin as ->; done].
      destruct (IH Hin Hq) as (q' & ? & ? & ? & ?).
      exists q'. split_and!; [elem_snoc | done..].
  - apply elem_of_app in Hin as [Hin|Hin].
    + destruct (IH Hin Hq) as (q' & ? & ? & ? & ?).
      exists q'. split_and!; [elem_snoc | done..].
    + apply list_elem_of_singleton in Hin as ->. congruence.
Qed.

(** *** Adding questions *)

Lemma addQuestionsFromInterrupt_prefix uuid now data st :
  questions st `prefix_of` questions (addQuestionsFromInterrupt uuid now data st).
Proof.
  unfold addQuestionsFromInterrupt.
  destruct (questions_in data); simpl; [by eexists | done].
Qed.

Lemma NoDup_fmap_filter {A B} (g : A → B) (f : A → bool) (l : list A) :
  NoDup (g <$> l) → NoDup (g <$> List.filter f l).
Proof.
  induction l as [|x l IH]; simpl; [done|].
  rewrite NoDup_cons. intros [Hx Hl].
  destruct (f x); simpl; [|auto].
  apply NoDup_cons. split; [|auto].
  intros Hin. apply Hx.
  apply list_elem_of_fmap in Hin as (y & -> & Hy).
  apply elem_of_List_filter in Hy as [Hy _].
  apply list_elem_of_fmap. eauto.
Qed.

(** A batch whose own ids are pairwise distinct keeps the ids of the
    set pairwise distinct. *)
Lemma addQuestionsFromInterrupt_NoDup uuid now items st :
  NoDup (id <$> questions st) →
  NoDup (id <$> imap (fromInput uuid now) items) →
  NoDup (id <$> questions
           (addQuestionsFromInterrupt uuid now
              {| questions_in := Some items |} st)).
Proof.
  intros Hst Hitems. unfold addQuestionsFromInterrupt. simpl.
  rewrite fmap_app. apply NoDup_app. split_and!.
  - done.
  - intros i Hi Hi'.
    apply list_elem_of_fmap in Hi' as (q & -> & Hq).
    apply elem_of_List_filter in Hq as [_ Hq].
    apply negb_true_iff, bool_decide_eq_false in Hq.
    apply Hq. by apply elem_of_list_to_set.
  - by apply NoDup_fmap_filter.
Qed.

Lemma addQuestion_NoDup uuid now t o st :
  NoDup (id <$> questions st) →
  uuid ∉ id <$> questions st →
  NoDup (id <$> questions (addQuestion uuid now t o st).2).
Proof.
  intros Hst Hfresh. simpl. rewrite fmap_app. apply NoDup_app. split_and!.
  - done.
  - intros i Hi Hi'. simpl in Hi'.
    apply list_elem_of_singleton in Hi' as ->. done.
  - apply NoDup_singleton.
Qed.

(** C3, evaluated on a batch that repeats an id: [addQuestionsFromInterrupt]
    filters the batch against the ids already in the set only, so both
    items of the batch are appended and the set holds the id twice. *)
Theorem C3_repeated_id_in_batch uuid now :
  let st :=
    addQuestionsFromInterrupt uuid now
      {| questions_in := Some [Samples.item "a" "first";
                               Samples.item "a" "second"] |}
      initial in
  id <$> questions st = ["a"; "a"]%string
  ∧ text <$> questions st = ["first"; "second"]%string.
Proof. split; reflexivity. Qed.

(** *** Reading the gate *)

Lemma canProceed_spec st :
  canProceed st = true ↔
  ∀ q, q ∈ questions st → ¬ (status q = pending ∧ priority q = blocking).
Proof.
  unfold canProceed. rewrite negb_true_iff, existsb_false_iff.
  split; intros H q Hq.
  - rewrite <- isBlockingPending_spec. rewrite (H q Hq). done.
  - apply not_true_is_false. rewrite isBlockingPending_spec. by apply H.
Qed.

(** C9: [canProceed()] is true exactly when no question of the set is
    both pending and blocking; a question that is not pending, or not
    blocking, can be removed from the set without changing the answer. *)
Theorem C9_canProceed_iff st :
  (canProceed st = true ↔
   ∀ q, q ∈ questions st → ¬ (status q = pending ∧ priority q = blocking))
  ∧ (∀ l1 q l2,
       questions st = l1 ++ q :: l2 →
       status q ≠ pending ∨ priority q ≠ blocking →
       canProceed st = canProceed (setQuestions (λ _, l1 ++ l2) st)).
Proof.
  split; [apply canProceed_spec|].
  intros l1 q l2 Hqs Hq. unfold canProceed. simpl. rewrite Hqs.
  rewrite !existsb_app. simpl.
  assert (isBlockingPending q = false) as ->; [|done].
  apply not_true_is_false. rewrite isBlockingPending_spec. tauto.
Qed.

(** *** Answering and skipping *)

(** C10: when no question of the set has the given id, neither
    [answerQuestion] nor [skipQuestion] changes the set. *)
Theorem C10_unknown_id_unchanged opts reruns now i a st :
  (∀ q, q ∈ questions st → id q ≠ i) →
  questions (answerQuestion opts reruns now i a st) = questions st
  ∧ questions (skipQuestion now i st) = questions st.
Proof.
  intros Hi. rewrite answerQuestion_questions, skipQuestion_questions.
  split; apply imap_unchanged; intros k q Hq;
    by rewrite bool_decide_eq_false_2 by auto.
Qed.

(** An instance: the id [zz] in a set whose only question is [q1]. *)
Lemma C10_unknown_id_unchanged_witness :
  let st := Samples.queue [Samples.question "q1" blocking pending None] in
  (∀ q, q ∈ questions st → id q ≠ "zz"%string)
  ∧ questions (answerQuestion Samples.callbacks 1 Samples.dates "zz" "REST" st)
    = questions st
  ∧ questions (skipQuestion Samples.dates "zz" st) = questions st.
Proof.
  intros st.
  assert (H : ∀ q, q ∈ questions st → id q ≠ "zz"%string).
  { intros q Hq. apply list_elem_of_singleton in Hq as ->. simpl. done. }
  split; [exact H|].
  exact (C10_unknown_id_unchanged Samples.callbacks 1 Samples.dates
           "zz" "REST" st H).
Defined.

(** C2, as the code has it: the question at any position of the set
    is, after [answerQuestion], answered with the given answer and the
    time read for it when its id is the given one, whatever its status
    was, and is the same question otherwise; after [skipQuestion] it is
    skipped and stamped with the time read for it, with its answer
    kept, when its id is the given one, and the same question
    otherwise. Neither operation leaves a question pending that it has
    touched. *)
Theorem C2_answer_skip_transitions opts reruns now i a st k q :
  questions st !! k = Some q →
  ∃ qa qk,
    questions (answerQuestion opts reruns now i a st) !! k = Some qa
    ∧ questions (skipQuestion now i st) !! k = Some qk
    ∧ (id q = i →
       status qa = answered ∧ answer qa = Some a
       ∧ answeredAt qa = Some (now k)
       ∧ status qk = skipped ∧ answer qk = answer q
       ∧ answeredAt qk = Some (now k))
    ∧ (id q ≠ i → qa = q ∧ qk = q)
    ∧ (status qa = pending → qa = q)
    ∧ (status qk = pending → qk = q).
Proof.
  intros Hk. rewrite answerQuestion_questions, skipQuestion_questions.
  rewrite !list_lookup_imap, Hk. simpl.
  eexists _, _. split_and!; try reflexivity.
  - intros Hi. by rewrite !bool_decide_eq_true_2.
  - intros Hi. by rewrite !bool_decide_eq_false_2.
  - case_bool_decide; [discriminate | done].
  - case_bool_decide; [discriminate | done].
Qed.

(** An instance: the pending question [q1], answered or skipped. *)
Lemma C2_answer_skip_transitions_witness :
  let st := Samples.queue [Samples.question "q1" blocking pending None] in
  questions st !! 0 = Some (Samples.question "q1" blocking pending None)
  ∧ ∃ qa qk,
      questions (answerQuestion Samples.callbacks 1 Samples.dates "q1" "REST" st)
        !! 0 = Some qa
      ∧ questions (skipQuestion Samples.dates "q1" st) !! 0 = Some qk
      ∧ status qa = answered ∧ status qk = skipped.
Proof.
  intros st. split; [reflexivity|].
  destruct (C2_answer_skip_transitions Samples.callbacks 1 Samples.dates
              "q1" "REST" st 0
              (Samples.question "q1" blocking pending None) eq_refl)
    as (qa & qk & Ha & Hs & Hi & _).
  exists qa, qk. split_and!; [exact Ha | exact Hs | |];
    by destruct (Hi eq_refl) as (? & _ & _ & ? & _).
Defined.

(** C2 as stated fails: answering a skipped question makes it
    answered, answering an answered question replaces its answer, and
    skipping an answered question makes it skipped. *)
Lemma C2_counterexample :
  let skippedQ := Samples.queue [Samples.question "q1" blocking skipped None] in
  let answeredQ :=
    Samples.queue [Samples.question "q1" blocking answered (Some "REST"%string)] in
  (status <$> questions
     (answerQuestion Samples.callbacks 0 Samples.dates "q1" "late" skippedQ))
    = [answered]
  ∧ (answer <$> questions
       (answerQuestion Samples.callbacks 0 Samples.dates "q1" "late" answeredQ))
    = [Some "late"%string]
  ∧ (status <$> questions (skipQuestion Samples.dates "q1" answeredQ))
    = [skipped].
Proof. split_and!; reflexivity. Qed.

(** C1, as the code has it: when the caller supplied the resume
    callback, answering the question that every pending blocking
    question of the set shares its id with hands the resume callback
    to the timer queue at each run of the updater that schedules it,
    at least once and every time with the same record; nothing but the
    per-answer callback is invoked before [answerQuestion] returns;
    the next turn of the event loop invokes the resume callback with
    that record, once for each queued timer. Every entry of the record
    is the id and the non-empty answer of an answered question of the
    set, and every answered question with a non-empty answer has its
    id bound in the record, to its own answer when the questions that
    share its id agree on the answer. The record may be empty. *)
Theorem C1_resume_after_last_blocking opts reruns now i a st :
  onResumeWithAnswers opts = true →
  (∃ q, q ∈ questions st ∧ id q = i
        ∧ status q = pending ∧ priority q = blocking) →
  (∀ q, q ∈ questions st →
        status q = pending → priority q = blocking → id q = i) →
  let st' := answerQuestion opts reruns now i a st in
  ∃ answers,
    timers st' = timers st ++ replicate (S reruns) answers
    ∧ calls st' = calls st ++ (if onAnswer opts then [OnAnswerCall i a] else [])
    ∧ calls (runTimers st') =
      calls st' ++ (OnResumeCall <$> timers st)
        ++ replicate (S reruns) (OnResumeCall answers)
    ∧ (∀ k v, answers !! k = Some v →
              ∃ q, q ∈ questions st' ∧ id q = k ∧ status q = answered
                   ∧ answer q = Some v ∧ v ≠ ""%string)
    ∧ (∀ q v, q ∈ questions st' → status q = answered →
              answer q = Some v → v ≠ ""%string →
              is_Some (answers !! id q)
              ∧ ((∀ q', q' ∈ questions st' → id q' = id q →
                        hasAnswer q' = true → answer q' = Some v) →
                 answers !! id q = Some v)).
Proof.
  intros Hcb _ Hlast st'.
  assert (Hgo : canProceed st' = true).
  { apply canProceed_spec. intros q' Hq' [Hp Hb].
    subst st'. rewrite answerQuestion_questions in Hq'.
    apply elem_of_lookup_imap in Hq' as (k & q & -> & Hq).
    apply list_elem_of_lookup_2 in Hq.
    case_bool_decide as Hid; [discriminate|].
    apply Hid. by apply Hlast. }
  exists (collectAnswers (questions st')).
  pose proof (answerQuestion_timers opts reruns now i a st) as Ht.
  cbv zeta in Ht. fold st' in Ht. rewrite Hgo, Hcb in Ht.
  change (true && true) with true in Ht. cbv iota in Ht.
  split_and!.
  - exact Ht.
  - apply answerQuestion_calls.
  - unfold runTimers. cbn [calls]. rewrite Ht, fmap_app, fmap_replicate. done.
  - intros k v Hk.
    apply collectAnswers_lookup_Some in Hk as (q & Hq & Hans & Hid & Hv).
    exists q. apply hasAnswer_spec in Hans as (Hs & v' & Hv' & Hne).
    split_and!; try done. congruence.
  - intros q v Hq Hs Hv Hne.
    assert (Hans : hasAnswer q = true).
    { apply hasAnswer_spec. eauto. }
    destruct (collectAnswers_lookup_elem _ _ Hq Hans)
      as (q' & Hq' & Hans' & Hid & Hlook).
    split.
    + rewrite Hlook. apply hasAnswer_spec in Hans' as (_ & w & -> & _). eauto.
    + intros Hagree. rewrite Hlook. by apply Hagree.
Qed.

(** An instance: [q1] is the only pending blocking question, [q2] was
    skipped; answering [q1] schedules the resume with [q1]'s answer,
    twice when the scheduling updater is run a second time. *)
Lemma C1_resume_after_last_blocking_witness :
  let st :=
    Samples.queue [Samples.question "q1" blocking pending None;
                   Samples.question "q2" nice_to_have skipped None] in
  let st' := answerQuestion Samples.callbacks 1 Samples.dates "q1" "REST" st in
  ∃ answers,
    timers st' = [answers; answers]
    ∧ calls st' = [OnAnswerCall "q1" "REST"]
    ∧ calls (runTimers st')
      = [OnAnswerCall "q1" "REST"; OnResumeCall answers; OnResumeCall answers]
    ∧ answers !! "q1"%string = Some "REST"%string.
Proof.
  intros st st'.
  assert (H1 : ∃ q, q ∈ questions st ∧ id q = "q1"%string
                    ∧ status q = pending ∧ priority q = blocking).
  { eexists. split; [apply list_elem_of_here | done]. }
  assert (H2 : ∀ q, q ∈ questions st →
                    status q = pending → priority q = blocking →
                    id q = "q1"%string).
  { intros q Hq Hp _. apply elem_of_cons in Hq as [->|Hq]; [done|].
    apply list_elem_of_singleton in Hq as ->. discriminate Hp. }
  destruct (C1_resume_after_last_blocking Samples.callbacks 1 Samples.dates
              "q1" "REST" st eq_refl H1 H2)
    as (answers & Ht & Hc & Hr & _ & Hin).
  exists answers. split_and!; [exact Ht | exact Hc | exact Hr |].
  apply (Hin (markAnswered "REST" (Samples.dates 0)
                (Samples.question "q1" blocking pending None)));
    [apply list_elem_of_here | done | done | done |].
  intros q' Hq' Hid _.
  apply elem_of_cons in Hq' as [->|Hq']; [done|].
  apply list_elem_of_singleton in Hq' as ->. discriminate Hid.
Defined.

(** The scenarios of the specification. *)
Example scenario_answer_blocking :
  let (i, st) :=
    addQuestion "u1" 7 "Use REST or GraphQL?"
      (Some {| add_priority := Some blocking; add_confidence := None;
               add_context := None; add_options := None;
               add_subject := None |})
      initial in
  let st' := answerQuestion Samples.callbacks 0 Samples.dates i "REST" st in
  canProceed st = false
  ∧ canProceed st' = true
  ∧ getAllAnswers st' = {[ i := "REST"%string ]}.
Proof. split_and!; reflexivity. Qed.

Example scenario_skip :
  let st :=
    Samples.queue [Samples.question "b" blocking pending None;
                   Samples.question "n" nice_to_have pending None] in
  canProceed (skipQuestion Samples.dates "n" st) = false
  ∧ canProceed (skipQuestion Samples.dates "b"
                  (skipQuestion Samples.dates "n" st)) = true
  ∧ timers (skipQuestion Samples.dates "b"
              (skipQuestion Samples.dates "n" st)) = [].
Proof. split_and!; reflexivity. Qed.

(** Two questions that came in one batch under the same id are both
    answered by one call, each with the time read for it: they share
    status and answer, and their answer times may differ. *)
Example same_id_answer_times :
  let st :=
    addQuestionsFromInterrupt (λ _, "u"%string) (λ _, 6%Z)
      {| questions_in := Some [Samples.item "a" "first";
                               Samples.item "a" "second"] |}
      initial in
  let st' := answerQuestion Samples.callbacks 0 Samples.dates "a" "REST" st in
  status <$> questions st' = [answered; answered]
  ∧ answer <$> questions st' = [Some "REST"%string; Some "REST"%string]
  ∧ answeredAt <$> questions st'
    = [Some 1700000000000%Z; Some 1700000000001%Z].
Proof. split_and!; reflexivity. Qed.

(** C1 as stated fails in two places. Answering the last pending
    blocking question with the empty string schedules the resume
    callback, with an empty record, although no question of the set is
    answered with a non-empty answer. And when the updater that calls
    [setTimeout] is run a second time, answering the last pending
    blocking question queues two timers, and the resume callback is
    invoked twice. *)
Lemma C1_counterexample :
  let st := Samples.queue [Samples.question "q1" blocking pending None] in
  let st' := answerQuestion Samples.callbacks 0 Samples.dates "q1" "" st in
  let st2 := answerQuestion Samples.callbacks 1 Samples.dates "q1" "REST" st in
  (timers st' = [∅]
   ∧ calls (runTimers st') = [OnAnswerCall "q1" ""; OnResumeCall ∅]
   ∧ ¬ ∃ q, q ∈ questions st' ∧ status q = answered
             ∧ ∃ v, answer q = Some v ∧ v ≠ ""%string)
  ∧ (timers st2 = [{[ "q1"%string := "REST"%string ]};
                   {[ "q1"%string := "REST"%string ]}]
     ∧ calls (runTimers st2)
       = [OnAnswerCall "q1" "REST";
          OnResumeCall {[ "q1"%string := "REST"%string ]};
          OnResumeCall {[ "q1"%string := "REST"%string ]}]).
Proof.
  split; [|split; reflexivity].
  split_and!; [reflexivity | reflexivity |].
  intros (q & Hq & _ & v & Hv & Hne).
  apply list_elem_of_singleton in Hq as ->. simpl in Hv.
  injection Hv as <-. done.
Qed.

End QuestionsFacts.

(** * Properties of the session controller *)

Section ControllerFacts.

Import Chat.

Implicit Types (props : Props).

(** The four operations that end with [onHistoryRevalidate?.()]: when
    the callback was supplied, the refresh is requested after the
    submission and before the operation returns. *)
Lemma refresh_after_submit props uuid text h value :
  onHistoryRevalidate props = true →
  last (sendMessage props uuid text) = Some HistoryRevalidate
  ∧ last (continueStream props h) = Some HistoryRevalidate
  ∧ last (resumeInterrupt props value) = Some HistoryRevalidate
  ∧ last (markCurrentThreadAsResolved props) = Some HistoryRevalidate.
Proof.
  intros H.
  unfold sendMessage, continueStream, resumeInterrupt,
    markCurrentThreadAsResolved, revalidate.
  rewrite H. by split_and!.
Qed.

(** C7, evaluated on [runSingleStep]: whatever its arguments, with or
    without a checkpoint, it submits once and requests no refresh of
    the thread list, although the callback may have been supplied. *)
Theorem C7_runSingleStep_no_refresh props messages cp rerun optimistic :
  (HistoryRevalidate ∉ runSingleStep props messages cp rerun optimistic)
  ∧ length (runSingleStep props messages cp rerun optimistic) = 1.
Proof.
  unfold runSingleStep. destruct cp; split; try done.
  - intros H. apply list_elem_of_singleton in H. discriminate.
  - intros H. apply list_elem_of_singleton in H. discriminate.
Qed.

(** C8: [runSingleStep] without a checkpoint halts before tools; with
    a checkpoint it halts after tools when [isRerunningSubagent] is
    true and before tools otherwise; [continueStream] halts after
    tools when [hasTaskToolCall] is true and before tools otherwise.
    Each operation submits exactly once. *)
Theorem C8_halt_point_selection props messages cp rerun optimistic h :
  haltPoint <$> submissions (runSingleStep props messages None rerun optimistic)
    = [Some BeforeTools]
  ∧ haltPoint <$> submissions
                    (runSingleStep props messages (Some cp) rerun optimistic)
    = [Some (if bool_decide (rerun = Some true)
             then AfterTools else BeforeTools)]
  ∧ haltPoint <$> submissions (continueStream props h)
    = [Some (if bool_decide (h = Some true)
             then AfterTools else BeforeTools)].
Proof.
  split_and!.
  - reflexivity.
  - by destruct rerun as [[]|].
  - unfold continueStream, revalidate.
    destruct (onHistoryRevalidate props); by destruct h as [[]|].
Qed.

End ControllerFacts.

(** * Properties of the subagent message demultiplexer *)

Section DemuxFacts.

Import JS Chat.

Implicit Types (s : Subagent) (msg m : Message) (ev : StreamEvent).
Implicit Types (k i : string) (now : Clock).

(** *** Insertion-ordered maps *)

Lemma mapGet_mapSet_eq {V} k (v : V) (mp : JsMap V) :
  mapGet k (mapSet k v mp) = Some v.
Proof.
  induction mp as [|[k' v'] mp IH]; simpl.
  - by rewrite String.eqb_refl.
  - destruct (String.eqb k' k) eqn:E; simpl.
    + by rewrite String.eqb_refl.
    + by rewrite E.
Qed.

Lemma mapGet_mapSet_ne {V} k k' (v : V) (mp : JsMap V) :
  k ≠ k' → mapGet k' (mapSet k v mp) = mapGet k' mp.
Proof.
  intros Hne. induction mp as [|[k0 v0] mp IH]; simpl.
  - by apply String.eqb_neq in Hne as ->.
  - destruct (String.eqb k0 k) eqn:E; simpl.
    + apply String.eqb_eq in E as ->.
      by apply String.eqb_neq in Hne as ->.
    + by rewrite IH.
Qed.

(** *** One message *)

Lemma findId_true i (l : list Message) :
  findId i l = true ↔ Some i ∈ id <$> l.
Proof.
  unfold findId. rewrite existsb_exists, list_elem_of_fmap.
  split.
  - intros (x & Hx & Hid). apply bool_decide_eq_true in Hid.
    exists x. by rewrite <- list_elem_of_In in Hx.
  - intros (x & Hid & Hx). exists x.
    rewrite <- list_elem_of_In. by rewrite bool_decide_eq_true.
Qed.

(** The log of the tool call after [track]: unchanged when it holds
    the id already, extended by the message otherwise. *)
Lemma track_logs k i msg s :
  logs (track k i msg s) k =
  if findId i (logs s k) then logs s k else logs s k ++ [withId i msg].
Proof.
  unfold logs, track, mapHas. simpl.
  destruct (mapGet k (subagentMessages s)) as [l|] eqn:Hk; simpl.
  - rewrite Hk. simpl. destruct (findId i l).
    + by rewrite Hk.
    + by rewrite mapGet_mapSet_eq.
  - rewrite !mapGet_mapSet_eq. simpl. by rewrite mapGet_mapSet_eq.
Qed.

(** A message whose id the log holds already is dropped: the map of
    logs stays as it is. *)
Lemma track_dropped k i msg s :
  Some i ∈ id <$> logs s k →
  subagentMessages (track k i msg s) = subagentMessages s.
Proof.
  intros Hin. apply findId_true in Hin. revert Hin.
  unfold logs, track, mapHas. simpl.
  destruct (mapGet k (subagentMessages s)) as [l|] eqn:Hk; simpl.
  - rewrite Hk. simpl. by intros ->.
  - discriminate.
Qed.

(** The logs of the other tool calls are not touched. *)
Lemma track_other k k' i msg s :
  k ≠ k' →
  mapGet k' (subagentMessages (track k i msg s))
  = mapGet k' (subagentMessages s).
Proof.
  intros Hne. unfold track, mapHas. simpl.
  destruct (mapGet k (subagentMessages s)) as [l|] eqn:Hk; simpl.
  - rewrite Hk. simpl. destruct (findId i l); [done|].
    by rewrite mapGet_mapSet_ne.
  - rewrite mapGet_mapSet_eq. simpl.
    by rewrite !mapGet_mapSet_ne.
Qed.

Lemma track_extendsWith k i msg (from : list Message) s :
  msg ∈ from → extendsWith k from s (track k i msg s).
Proof.
  intros Hin. split_and!.
  - intros k' Hne. by apply track_other.
  - rewrite track_logs. destruct (findId i (logs s k)) eqn:Hf.
    + exists []. rewrite app_nil_r. split; [done|]. by inversion 1.
    + eexists. split; [done|]. intros m' Hm'.
      apply list_elem_of_singleton in Hm' as ->. eauto.
  - intros Hd k'. destruct (decide (k = k')) as [<-|Hne].
    + rewrite track_logs. destruct (findId i (logs s k)) eqn:Hf; [done|].
      rewrite fmap_app. simpl. apply NoDup_app. split_and!.
      * done.
      * intros x Hx Hx'. apply list_elem_of_singleton in Hx' as ->.
        apply findId_true in Hx. congruence.
      * apply NoDup_singleton.
    + unfold logs. rewrite track_other by done. apply Hd.
Qed.

Lemma extendsWith_refl k (from : list Message) s : extendsWith k from s s.
Proof.
  split_and!; [done | | done].
  exists []. rewrite app_nil_r. split; [done|]. by inversion 1.
Qed.

Lemma extendsWith_trans k (from : list Message) s1 s2 s3 :
  extendsWith k from s1 s2 → extendsWith k from s2 s3 →
  extendsWith k from s1 s3.
Proof.
  intros (Ho1 & (n1 & Hl1 & Hn1) & Hd1) (Ho2 & (n2 & Hl2 & Hn2) & Hd2).
  split_and!.
  - intros k' Hne. by rewrite Ho2, Ho1.
  - exists (n1 ++ n2). rewrite Hl2, Hl1, app_assoc. split; [done|].
    intros m' Hm'. apply elem_of_app in Hm' as [?|?]; auto.
  - auto.
Qed.

Lemma extendsWith_grows k (from : list Message) s s' :
  extendsWith k from s s' → grows s s'.
Proof.
  intros (Ho & (new & Hl & _) & _) k'.
  destruct (decide (k = k')) as [<-|Hne].
  - rewrite Hl. by apply prefix_app_r.
  - unfold logs. by rewrite Ho.
Qed.

(** *** Loops *)

Lemma elem_of_concat {A} (x : A) (ls : list (list A)) :
  x ∈ concat ls ↔ ∃ l, l ∈ ls ∧ x ∈ l.
Proof.
  induction ls as [|l ls IH]; simpl.
  - split; [by inversion 1 | by intros (l & Hl & _); inversion Hl].
  - rewrite elem_of_app, IH. split.
    + intros [Hx|(l' & Hl' & Hx)].
      * exists l. split; [apply list_elem_of_here | done].
      * exists l'. split; [by right | done].
    + intros (l' & Hl' & Hx).
      apply elem_of_cons in Hl' as [->|Hl']; [by left | right; eauto].
Qed.

Lemma forEachFrom_rel {A St} (R : St → St → Prop) (f : A → nat → St → St)
    (xs : list A) :
  (∀ st, R st st) →
  (∀ st1 st2 st3, R st1 st2 → R st2 st3 → R st1 st3) →
  (∀ x idx st, x ∈ xs → R st (f x idx st)) →
  ∀ n st, R st (forEachFrom f xs n st).
Proof.
  intros Hrefl Htrans. induction xs as [|x xs IH]; intros Hstep n st; simpl.
  - apply Hrefl.
  - eapply Htrans; [apply Hstep, list_elem_of_here|].
    apply IH. intros y idx st' Hy. apply Hstep. by right.
Qed.

Lemma forEachFrom_reach {A St} (P : St → Prop) (f : A → nat → St → St)
    (xs : list A) x :
  x ∈ xs →
  (∀ idx st, P (f x idx st)) →
  (∀ y idx st, P st → P (f y idx st)) →
  ∀ n st, P (forEachFrom f xs n st).
Proof.
  intros Hx Hest Hkeep. induction xs as [|y xs IH]; intros n st; simpl.
  - by inversion Hx.
  - apply elem_of_cons in Hx as [<-|Hx].
    + clear IH. generalize (Datatypes.S n) (f x n st) (Hest n st).
      induction xs as [|z xs IH]; intros n' st' Hst'; simpl; [done|].
      apply IH, Hkeep, Hst'.
    + by apply IH.
Qed.

Lemma forEach_extendsWith {A} k (from : list Message)
    (f : A → nat → Subagent → Subagent) (xs : list A) s :
  (∀ x idx st, x ∈ xs → extendsWith k from st (f x idx st)) →
  extendsWith k from s (forEach f xs s).
Proof.
  intros Hstep. unfold forEach.
  apply (forEachFrom_rel (extendsWith k from)); auto.
  - apply extendsWith_refl.
  - apply extendsWith_trans.
Qed.

(** *** One event *)

Lemma orStr_present i d : i ≠ ""%string → orStr (Some i) d = i.
Proof. intros Hi. simpl. by apply String.eqb_neq in Hi as ->. Qed.

Lemma handle_no_namespace now ev s :
  namespaceOf ev = None ∨ namespaceOf ev = Some [] →
  handle now ev s = s.
Proof. intros [H|H]; destruct ev; simpl in *; by subst. Qed.

Lemma handle_extendsWith now ev namespaceStr rest s :
  namespaceOf ev = Some (namespaceStr :: rest) →
  extendsWith (toolCallIdOf namespaceStr) (candidates ev) s (handle now ev s).
Proof.
  intros Hns. destruct ev as [data ns|data ns]; simpl in Hns; subst ns;
    simpl.
  - destruct (model_messages data) as [ms|]; [|destruct (messages data) as [ms|]];
      simpl; try apply extendsWith_refl;
      (apply forEach_extendsWith;
       intros x idx st Hx; by apply track_extendsWith).
  - set (k := toolCallIdOf namespaceStr).
    set (from := concat (messageSources (payload data)) ++ _).
    assert (Hloops :
      ∀ st, extendsWith k from st
              (forEach
                 (λ messages src,
                    forEach
                      (λ msg idx,
                         track k (orStr (id msg)
                                    (debugFallbackId k idx (now src idx))) msg)
                      messages)
                 (messageSources (payload data)) st)).
    { intros st. apply forEach_extendsWith.
      intros src idx st' Hsrc. apply forEach_extendsWith.
      intros x idx' st'' Hx. apply track_extendsWith.
      subst from. apply elem_of_app. left.
      apply elem_of_concat. eauto. }
    destruct (payload data) as [p|] eqn:Hp; [|apply Hloops].
    case_bool_decide as Ht; [|apply Hloops].
    eapply extendsWith_trans; [apply Hloops|].
    apply track_extendsWith. subst from. apply elem_of_app. right.
    simpl. apply list_elem_of_here.
Qed.

(** Every event makes the logs grow and keeps ids distinct. *)
Lemma handle_grows now ev s : grows s (handle now ev s).
Proof.
  destruct (namespaceOf ev) as [[|seg rest]|] eqn:Hns.
  - rewrite handle_no_namespace by auto. by intros k.
  - eapply extendsWith_grows, handle_extendsWith, Hns.
  - rewrite handle_no_namespace by auto. by intros k.
Qed.

Lemma handle_distinctIds now ev s : distinctIds s → distinctIds (handle now ev s).
Proof.
  destruct (namespaceOf ev) as [[|seg rest]|] eqn:Hns.
  - by rewrite handle_no_namespace by auto.
  - by apply (handle_extendsWith now ev seg rest s Hns).
  - by rewrite handle_no_namespace by auto.
Qed.

Lemma stripPrefix_Some p str r :
  stripPrefix p str = Some r → str = p +:+ r.
Proof.
  revert str. induction p as [|a p IH]; intros str; simpl.
  - by intros [= ->].
  - destruct str as [|b str]; [done|].
    destruct (Ascii.eqb a b) eqn:E; [|done].
    apply Ascii.eqb_eq in E as ->. intros H. by rewrite (IH _ H).
Qed.

Lemma stripPrefix_app p r : stripPrefix p (p +:+ r) = Some r.
Proof.
  induction p as [|a p IH]; simpl; [done|]. by rewrite Ascii.eqb_refl.
Qed.

Lemma grows_has k i s s' :
  grows s s' → Some i ∈ id <$> logs s k → Some i ∈ id <$> logs s' k.
Proof.
  intros Hg. destruct (Hg k) as [l ->].
  rewrite fmap_app, elem_of_app. by left.
Qed.

Lemma track_has k i msg s : Some i ∈ id <$> logs (track k i msg s) k.
Proof.
  rewrite track_logs. destruct (findId i (logs s k)) eqn:Hf.
  - by apply findId_true.
  - rewrite fmap_app, elem_of_app. right. simpl. apply list_elem_of_here.
Qed.

(** A message of the event that has an id is in the log of the
    event's tool call once the event is handled. *)
Lemma handle_carries now ev k i s :
  carries ev k i → Some i ∈ id <$> logs (handle now ev s) k.
Proof.
  intros ((seg & rest & Hns & <-) & Hi & msg & Hmsg & Hid).
  set (k := toolCallIdOf seg).
  assert (Hkeep : ∀ j y st,
            Some i ∈ id <$> logs st k → Some i ∈ id <$> logs (track k j y st) k).
  { intros j y st. apply grows_has.
    apply (extendsWith_grows k [y]), track_extendsWith, list_elem_of_here. }
  destruct ev as [data ns|data ns]; simpl in Hns; subst ns; simpl; fold k.
  - simpl in Hmsg.
    assert (∃ ms, match model_messages data with
                  | Some ms => Some ms | None => messages data end = Some ms
                  ∧ msg ∈ ms) as (ms & -> & Hin).
    { destruct (model_messages data) as [ms|]; [eauto|].
      destruct (messages data) as [ms|]; [eauto | by inversion Hmsg]. }
    apply (forEachFrom_reach (λ st, Some i ∈ id <$> logs st k) _ ms msg Hin).
    + intros idx st. rewrite Hid, orStr_present by done. apply track_has.
    + intros y idx st. apply Hkeep.
  - simpl in Hmsg. apply elem_of_app in Hmsg as [Hmsg|Hmsg].
    + apply elem_of_concat in Hmsg as (src & Hsrc & Hin).
      assert (Hloops :
        Some i ∈ id <$> logs
          (forEach
             (λ messages srcIdx,
                forEach
                  (λ msg idx,
                     track k (orStr (id msg)
                                (debugFallbackId k idx (now srcIdx idx))) msg)
                  messages)
             (messageSources (payload data)) s) k).
      { apply (forEachFrom_reach (λ st, Some i ∈ id <$> logs st k) _ _ src Hsrc).
        - intros srcIdx st.
          apply (forEachFrom_reach (λ st, Some i ∈ id <$> logs st k)
                   _ src msg Hin).
          + intros idx st'. rewrite Hid, orStr_present by done. apply track_has.
          + intros y idx st'. apply Hkeep.
        - intros y srcIdx st. apply grows_has.
          apply (extendsWith_grows k y), forEach_extendsWith.
          intros x idx st' Hx. by apply track_extendsWith. }
      destruct (payload data) as [p|]; [|done].
      case_bool_decide; [by apply Hkeep | done].
    + destruct (payload data) as [p|]; [|by inversion Hmsg].
      case_bool_decide; [|by inversion Hmsg].
      apply list_elem_of_singleton in Hmsg as ->.
      rewrite Hid, orStr_present by done. apply track_has.
Qed.

(** *** Sequences of events *)

Lemma feed_app evs1 evs2 s : feed (evs1 ++ evs2) s = feed evs2 (feed evs1 s).
Proof. apply foldl_app. Qed.

Lemma feed_grows evs s : grows s (feed evs s).
Proof.
  revert s. induction evs as [|e evs IH]; intros s k; simpl; [done|].
  etrans; [apply handle_grows | apply IH].
Qed.

Lemma feed_distinctIds evs s : distinctIds s → distinctIds (feed evs s).
Proof.
  revert s. induction evs as [|e evs IH]; intros s Hs; simpl; [done|].
  by apply IH, handle_distinctIds.
Qed.

Lemma emptySubagent_distinctIds : distinctIds emptySubagent.
Proof. intros k. apply NoDup_nil_2. Qed.

(** *** Threads *)

Lemma logOf_render threadId tid k (st : Store) :
  logOf tid k (render threadId st) = logOf tid k st.
Proof.
  unfold logOf, render. simpl.
  destruct (subagentMessagesByThread st !! currentThreadId threadId) eqn:E;
    [done|].
  destruct (decide (currentThreadId threadId = tid)) as [<-|Hne].
  - by rewrite lookup_insert_eq, E.
  - by rewrite lookup_insert_ne.
Qed.

Lemma logs_current threadId k (st : Store) :
  logs (current threadId st) k = logOf (currentThreadId threadId) k st.
Proof.
  unfold logs, current, logOf. simpl.
  by destruct (subagentMessagesByThread st !! currentThreadId threadId).
Qed.

Lemma logOf_commit threadId tid k s (st : Store) :
  logOf tid k (commit threadId s st) =
  if decide (currentThreadId threadId = tid) then logs s k else logOf tid k st.
Proof.
  unfold logOf, commit. simpl. case_decide as Htid.
  - subst tid. by rewrite lookup_insert_eq.
  - by rewrite lookup_insert_ne.
Qed.

(** No delivery removes or replaces an entry of any log of any
    thread. *)
Lemma deliver_grows now threadId ev tid k (st : Store) :
  logOf tid k st `prefix_of` logOf tid k (deliver now threadId ev st).
Proof.
  unfold deliver. rewrite logOf_commit. case_decide as Htid.
  - subst tid.
    rewrite <- (logOf_render threadId _ k st), <- logs_current.
    apply handle_grows.
  - by rewrite logOf_render.
Qed.

(** *** The claims *)

(** C4: when an event carries a message with id [i] into the tool
    call [k], the log of [k] holds a message with that id at some
    position; after any further events, among them a second event
    that carries the same id into [k], the log holds the same message
    at the same position and no other entry of the log has that id.
    Logs only grow: what a log holds stays, in place, under every
    further event, in the store of one thread and in the stores of
    all threads. *)
Theorem C4_same_id_kept_once
    (pre mid post : list (Clock * StreamEvent)) (e1 e2 : Clock * StreamEvent)
    k i :
  carries e1.2 k i →
  carries e2.2 k i →
  let s1 := feed (pre ++ [e1]) emptySubagent in
  let s2 := feed (mid ++ e2 :: post) s1 in
  (∃ n m,
     logs s1 k !! n = Some m ∧ id m = Some i
     ∧ logs s2 k !! n = Some m
     ∧ ∀ n' m', logs s2 k !! n' = Some m' → id m' = Some i → n' = n)
  ∧ grows s1 s2
  ∧ (∀ now' threadId ev tid k' (st : Store),
       logOf tid k' st `prefix_of` logOf tid k' (deliver now' threadId ev st)).
Proof.
  intros H1 _ s1 s2.
  assert (Hg : grows s1 s2) by apply feed_grows.
  assert (Hd : distinctIds s2).
  { apply feed_distinctIds, feed_distinctIds, emptySubagent_distinctIds. }
  split_and!; [| exact Hg | intros; apply deliver_grows].
  assert (Hin : Some i ∈ id <$> logs s1 k).
  { subst s1. rewrite feed_app. simpl. by apply handle_carries. }
  apply list_elem_of_fmap in Hin as (m & Hid & Hm).
  apply list_elem_of_lookup in Hm as (n & Hn).
  exists n, m. split_and!; [done | done | |].
  - eapply prefix_lookup_Some; [exact Hn | apply Hg].
  - intros n' m' Hn' Hid'.
    apply (NoDup_lookup (id <$> logs s2 k) n' n (Some i) (Hd k)).
    + by rewrite list_lookup_fmap, Hn'; simpl; rewrite Hid'.
    + rewrite list_lookup_fmap.
      rewrite (prefix_lookup_Some _ _ _ _ Hn (Hg k)). simpl. by rewrite Hid.
Qed.

(** An instance: the message [m1] arrives in an update event and
    again in a debug event, both under [tools:call_1]. *)
Lemma C4_same_id_kept_once_witness :
  let e1 := (Samples.clock, Samples.updateWithM1) in
  let e2 := (Samples.clock, Samples.debugWithM1) in
  carries e1.2 "call_1" "m1"
  ∧ carries e2.2 "call_1" "m1"
  ∧ ∃ n m,
      logs (feed [e1] emptySubagent) "call_1" !! n = Some m
      ∧ id m = Some "m1"%string
      ∧ logs (feed [e2] (feed [e1] emptySubagent)) "call_1" !! n = Some m
      ∧ ∀ n' m',
          logs (feed [e2] (feed [e1] emptySubagent)) "call_1" !! n' = Some m' →
          id m' = Some "m1"%string → n' = n.
Proof.
  intros e1 e2.
  assert (H1 : carries e1.2 "call_1" "m1").
  { split_and!; [by exists "tools:call_1"%string, [] | done |].
    eexists. split; [apply list_elem_of_here | done]. }
  assert (H2 : carries e2.2 "call_1" "m1").
  { split_and!; [by exists "tools:call_1"%string, [] | done |].
    eexists. split; [apply list_elem_of_here | done]. }
  split_and!; [exact H1 | exact H2 |].
  exact (proj1 (C4_same_id_kept_once [] [] [] e1 e2 "call_1" "m1" H1 H2)).
Defined.

(** The scenario of the specification: the same message fed by an
    update event and by a debug event gives a log of length one. *)
Example same_message_twice_length :
  length (logs (feed [(Samples.clock, Samples.updateWithM1);
                      (Samples.clock, Samples.debugWithM1)]
                     emptySubagent) "call_1") = 1.
Proof. reflexivity. Qed.

(** C5: the key of an event is computed from its first namespace
    segment: the part after [tools:] when that part is not empty and
    has no line terminator, the whole segment otherwise. Handling the
    event changes the log under that key only, by appending copies of
    the event's own messages, and every message of the event that has
    an id is in that log afterwards. An event with no namespace, or an
    empty one, changes nothing. For the namespaces [tools:abc] and
    [tools:xyz] the keys are [abc] and [xyz], and after one event of
    each the log of [abc] has gained messages of the first only and
    the log of [xyz] messages of the second only. *)
Theorem C5_stored_under_first_segment :
  (∀ i, i ≠ ""%string → hasLineTerminator i = false →
        toolCallIdOf ("tools:" +:+ i) = i)
  ∧ (∀ seg,
       (∀ i, seg = "tools:" +:+ i → i = ""%string ∨ hasLineTerminator i = true) →
       toolCallIdOf seg = seg)
  ∧ (∀ now ev seg rest s,
       namespaceOf ev = Some (seg :: rest) →
       let s' := handle now ev s in
       (∀ k', toolCallIdOf seg ≠ k' →
              mapGet k' (subagentMessages s') = mapGet k' (subagentMessages s))
       ∧ (∃ new, logs s' (toolCallIdOf seg) = logs s (toolCallIdOf seg) ++ new
                 ∧ ∀ m', m' ∈ new →
                         ∃ i m, m ∈ candidates ev ∧ m' = withId i m)
       ∧ (∀ m i, m ∈ candidates ev → id m = Some i → i ≠ ""%string →
                 Some i ∈ id <$> logs s' (toolCallIdOf seg)))
  ∧ (∀ now ev s,
       namespaceOf ev = None ∨ namespaceOf ev = Some [] →
       handle now ev s = s)
  ∧ (∀ now now' ea eb resta restb s,
       namespaceOf ea = Some ("tools:abc"%string :: resta) →
       namespaceOf eb = Some ("tools:xyz"%string :: restb) →
       let s' := handle now' eb (handle now ea s) in
       (∃ new, logs s' "abc" = logs s "abc" ++ new
               ∧ ∀ m', m' ∈ new → ∃ i m, m ∈ candidates ea ∧ m' = withId i m)
       ∧ (∃ new, logs s' "xyz" = logs s "xyz" ++ new
                 ∧ ∀ m', m' ∈ new → ∃ i m, m ∈ candidates eb ∧ m' = withId i m)).
Proof.
  split_and!.
  - intros i Hi Hlt. unfold toolCallIdOf, matchTools.
    rewrite stripPrefix_app, Hlt.
    by apply String.eqb_neq in Hi as ->.
  - intros seg Hseg. unfold toolCallIdOf, matchTools.
    destruct (stripPrefix "tools:" seg) as [r|] eqn:Hr; [|done].
    apply stripPrefix_Some in Hr.
    destruct (Hseg r Hr) as [->| ->]; [done|].
    by rewrite orb_true_r.
  - intros now ev seg rest s Hns s'.
    destruct (handle_extendsWith now ev seg rest s Hns) as (Ho & Hnew & _).
    split_and!; [exact Ho | exact Hnew |].
    intros m i Hm Hid Hi. apply handle_carries.
    split_and!; [by exists seg, rest | done | eauto].
  - intros now ev s. apply handle_no_namespace.
  - intros now now' ea eb resta restb s Ha Hb s'.
    destruct (handle_extendsWith now ea _ _ s Ha) as (Hoa & Hna & _).
    destruct (handle_extendsWith now' eb _ _ (handle now ea s) Hb)
      as (Hob & Hnb & _).
    change (toolCallIdOf "tools:abc") with "abc"%string in *.
    change (toolCallIdOf "tools:xyz") with "xyz"%string in *.
    split.
    + destruct Hna as (new & Hl & Hnew). exists new. split; [|done].
      rewrite <- Hl. subst s'. unfold logs. by rewrite Hob.
    + destruct Hnb as (new & Hl & Hnew). exists new. split; [|done].
      subst s'. rewrite Hl. f_equal. unfold logs. by rewrite Hoa.
Qed.

End DemuxFacts.

(** * Properties of the tool-call reconstruction *)

Section ReconstructFacts.

Import JS ChatMessage.

Variable JSON_stringify : JValue → string.
Variable JSON_stringify_pretty : JValue → string.
Variable ToString : JValue → string.

Local Abbreviation itemText := (itemText JSON_stringify ToString).
Local Abbreviation normalizeContent :=
  (normalizeContent JSON_stringify JSON_stringify_pretty ToString).
Local Abbreviation toolCallOf :=
  (toolCallOf JSON_stringify JSON_stringify_pretty ToString).
Local Abbreviation subagentToolCalls :=
  (subagentToolCalls JSON_stringify JSON_stringify_pretty ToString).
Local Abbreviation partOf := (partOf JSON_stringify ToString).
Local Abbreviation resultOf := (resultOf JSON_stringify JSON_stringify_pretty ToString).

Implicit Types (msgs : list Chat.Message) (tc : Chat.ToolCallRequest).

(** *** The lookup of tool results *)

Lemma toolResults_snoc msgs m :
  toolResults (msgs ++ [m]) =
  if isToolResult m
  then <[default ""%string (Chat.tool_call_id m) := m]> (toolResults msgs)
  else toolResults msgs.
Proof. unfold toolResults. by rewrite foldl_app. Qed.

Lemma isToolResult_id m :
  isToolResult m = true →
  ∃ i, Chat.tool_call_id m = Some i ∧ i ≠ ""%string.
Proof.
  unfold isToolResult, truthyStr. rewrite andb_true_iff. intros [_ H].
  destruct (Chat.tool_call_id m) as [i|]; [|done].
  exists i. split; [done|]. by apply String.eqb_neq, negb_true_iff.
Qed.

Lemma toolResults_lookup msgs i :
  toolResults msgs !! i =
  last (List.filter
          (λ m, isToolResult m && bool_decide (Chat.tool_call_id m = Some i))
          msgs).
Proof.
  induction msgs as [|m msgs IH] using rev_ind; [done|].
  rewrite toolResults_snoc, List.filter_app. simpl.
  destruct (isToolResult m) eqn:Hm; simpl.
  - destruct (isToolResult_id m Hm) as (j & Hj & _). rewrite Hj. simpl.
    destruct (decide (j = i)) as [->|Hne].
    + rewrite lookup_insert_eq, bool_decide_eq_true_2 by done.
      by rewrite last_snoc.
    + rewrite lookup_insert_ne by done.
      rewrite bool_decide_eq_false_2 by congruence.
      by rewrite app_nil_r.
  - by rewrite app_nil_r.
Qed.

Lemma toolResults_resultFor msgs tc :
  match Chat.tc_id tc with
  | Some i => toolResults msgs !! i
  | None => None
  end = resultFor msgs tc.
Proof.
  unfold resultFor. destruct (Chat.tc_id tc); [|done].
  apply toolResults_lookup.
Qed.

(** A request has a result exactly when some tool-role message of
    the collection refers to its id. *)
Lemma resultFor_is_Some msgs tc :
  is_Some (resultFor msgs tc) ↔
  ∃ m i, m ∈ msgs ∧ Chat.type m = Some "tool"%string
         ∧ Chat.tool_call_id m = Some i ∧ i ≠ ""%string
         ∧ Chat.tc_id tc = Some i.
Proof.
  unfold resultFor. split.
  - destruct (Chat.tc_id tc) as [i|]; [|by intros [? [=]]].
    intros [m Hm]. apply last_Some in Hm as [l Hl].
    assert (Hin : m ∈ List.filter
              (λ m, isToolResult m
                    && bool_decide (Chat.tool_call_id m = Some i)) msgs).
    { rewrite Hl. apply elem_of_app. right. apply list_elem_of_here. }
    apply elem_of_List_filter in Hin as [Hin Hp].
    apply andb_true_iff in Hp as [Ht Hi].
    apply bool_decide_eq_true in Hi.
    destruct (isToolResult_id m Ht) as (j & Hj & Hne).
    unfold isToolResult in Ht. apply andb_true_iff in Ht as [Ht _].
    apply bool_decide_eq_true in Ht.
    exists m, i. split_and!; try done. congruence.
  - intros (m & i & Hin & Ht & Hi & Hne & ->).
    assert (Hf : m ∈ List.filter
              (λ m, isToolResult m
                    && bool_decide (Chat.tool_call_id m = Some i)) msgs).
    { apply elem_of_List_filter. split; [done|].
      unfold isToolResult, truthyStr. rewrite Hi, Ht.
      rewrite !bool_decide_eq_true_2 by done. simpl.
      rewrite andb_true_r. by apply negb_true_iff, String.eqb_neq. }
    destruct (List.filter _ msgs) as [|x l] using rev_ind.
    + by inversion Hf.
    + rewrite last_snoc. eauto.
Qed.

(** *** Result contents *)

Lemma itemText_partOf item :
  readable item → ∃ part, itemText item = Some part ∧ partOf item part.
Proof.
  intros [Hu Hn]. destruct item as [| |b|n|str|items|fields]; try done;
    simpl; try (eexists; split; reflexivity).
  destruct (lookupField "text" fields) as [| |b|n|t|items|fs] eqn:Ht; simpl;
    try (eexists; split; reflexivity).
  eexists. split; [reflexivity|].
  case_decide as Hempty.
  - subst t. done.
  - by apply String.eqb_neq in Hempty as ->.
Qed.

Lemma mapM_itemText items :
  Forall readable items →
  ∃ parts, mapM itemText items = Some parts ∧ Forall2 partOf items parts.
Proof.
  induction 1 as [|item items Hitem _ (parts & Hparts & IH)].
  - exists []. by split.
  - destruct (itemText_partOf item Hitem) as (part & Hpart & Hp).
    exists (part :: parts). simpl. rewrite Hpart, Hparts. simpl.
    split; [done | by constructor].
Qed.

Lemma normalizeContent_resultOf c :
  (∀ items, c = JArr items → Forall readable items) →
  ∃ r, normalizeContent c = Some r ∧ resultOf c r.
Proof.
  intros Hc. destruct c as [| |b|n|str|items|fields]; simpl.
  - by eexists.
  - by eexists.
  - destruct b; by eexists.
  - destruct (n =? 0)%Z; by eexists.
  - by eexists.
  - destruct (mapM_itemText items (Hc items eq_refl)) as (parts & -> & Hparts).
    simpl. eexists. split; [reflexivity|]. eauto.
  - by eexists.
Qed.

(** *** The two loops *)

Lemma push_requests {A B} (g : A → option B) (P : A → B → Prop)
    (xs : list A) :
  (∀ x, x ∈ xs → ∃ r, g x = Some r ∧ P x r) →
  ∀ calls,
    ∃ rs, foldl (λ acc x, calls ← acc; r ← g x; Some (calls ++ [r]))
                (Some calls) xs = Some (calls ++ rs)
          ∧ Forall2 P xs rs.
Proof.
  induction xs as [|x xs IH]; intros Hxs calls; simpl.
  - exists []. by rewrite app_nil_r.
  - destruct (Hxs x (list_elem_of_here _ _)) as (r & -> & Hr). simpl.
    destruct (IH (λ y Hy, Hxs y (list_elem_of_further _ _ _ Hy)) (calls ++ [r]))
      as (rs & -> & Hrs).
    exists (r :: rs). rewrite <- app_assoc. split; [done | by constructor].
Qed.

Lemma push_messages {B} (g : Chat.ToolCallRequest → option B)
    (P : Chat.ToolCallRequest → B → Prop) msgs :
  (∀ tc, tc ∈ requests msgs → ∃ r, g tc = Some r ∧ P tc r) →
  ∀ calls,
    ∃ rs, foldl (λ acc msg,
                   foldl (λ acc tc,
                            calls ← acc; r ← g tc; Some (calls ++ [r]))
                         acc (requestsOf msg))
                (Some calls) msgs = Some (calls ++ rs)
          ∧ Forall2 P (requests msgs) rs.
Proof.
  induction msgs as [|m msgs IH]; intros Hall calls; simpl.
  - exists []. by rewrite app_nil_r.
  - unfold requests in *. simpl in *.
    destruct (push_requests g P (requestsOf m)
                (λ x Hx, Hall x (proj2 (elem_of_app _ _ _) (or_introl Hx))) calls)
      as (rs1 & -> & H1).
    destruct (IH (λ x Hx, Hall x (proj2 (elem_of_app _ _ _) (or_intror Hx)))
                 (calls ++ rs1))
      as (rs2 & -> & H2).
    exists (rs1 ++ rs2). rewrite <- app_assoc.
    split; [done | by apply Forall2_app].
Qed.

Lemma resultFor_elem msgs tc tr : resultFor msgs tc = Some tr → tr ∈ msgs.
Proof.
  unfold resultFor. destruct (Chat.tc_id tc) as [i|]; [|done].
  intros Hl. apply last_Some in Hl as [l Hl].
  assert (Hin : tr ∈ List.filter
            (λ m, isToolResult m
                  && bool_decide (Chat.tool_call_id m = Some i)) msgs).
  { rewrite Hl. apply elem_of_app. right. apply list_elem_of_here. }
  by apply elem_of_List_filter in Hin as [Hin _].
Qed.

(** *** The claim *)

(** C6, as the code has it: when no array content has an element
    that is [null] or [undefined], the reconstruction yields one
    record per tool-call request of the ai messages, in order, and
    nothing else. The record of a request has status completed when a
    tool-role message refers to the id of the request and pending,
    with no result, otherwise. A completed record has the result of
    the last such message: a string content as it is; an array content
    as its elements joined by newlines, where a string element stands
    for itself, an object for its [text] when that is not empty, and
    any other element, or an object without such a [text], for its
    dump; any other truthy content in its formatted rendering; and no
    result at all when the content is missing or falsy. *)
Theorem C6_reconstructed_tool_calls msgs :
  (∀ m items, m ∈ msgs → Chat.content m = JArr items →
              Forall readable items) →
  ∃ records,
    subagentToolCalls msgs = Some records
    ∧ Forall2
        (λ tc r,
           id r = Chat.tc_id tc
           ∧ name r = orStr (Chat.tc_name tc) "unknown"
           ∧ args r = (if truthy (Chat.tc_args tc)
                       then Chat.tc_args tc else JObj [])
           ∧ match resultFor msgs tc with
             | Some tr =>
                 status r = completed ∧ resultOf (Chat.content tr) (result r)
             | None => status r = pending ∧ result r = None
             end)
        (requests msgs) records
    ∧ (∀ tc,
         is_Some (resultFor msgs tc) ↔
         ∃ m i, m ∈ msgs ∧ Chat.type m = Some "tool"%string
                ∧ Chat.tool_call_id m = Some i ∧ i ≠ ""%string
                ∧ Chat.tc_id tc = Some i)
    ∧ (∀ m, Chat.type m ≠ Some "ai"%string → requestsOf m = []).
Proof.
  intros Hread.
  destruct (push_messages (toolCallOf (toolResults msgs))
              (λ tc r,
                 id r = Chat.tc_id tc
                 ∧ name r = orStr (Chat.tc_name tc) "unknown"
                 ∧ args r = (if truthy (Chat.tc_args tc)
                             then Chat.tc_args tc else JObj [])
                 ∧ match resultFor msgs tc with
                   | Some tr =>
                       status r = completed
                       ∧ resultOf (Chat.content tr) (result r)
                   | None => status r = pending ∧ result r = None
                   end)
              msgs) with (@nil ToolCall) as (records & Hrun & Hall).
  - intros tc _. unfold ChatMessage.toolCallOf.
    rewrite toolResults_resultFor.
    destruct (resultFor msgs tc) as [tr|] eqn:Htr.
    + destruct (normalizeContent_resultOf (Chat.content tr)) as (r & -> & Hr).
      { intros items Hitems. eapply Hread; [|exact Hitems].
        by eapply resultFor_elem. }
      simpl. eexists. split; [reflexivity|]. by simpl.
    + simpl. eexists. split; [reflexivity|]. by simpl.
  - exists records. split_and!.
    + exact Hrun.
    + exact Hall.
    + intros tc. apply resultFor_is_Some.
    + intros m Hm. unfold requestsOf. by rewrite bool_decide_eq_false_2.
Qed.

End ReconstructFacts.

(** An instance: the request [tc1] and the tool-role message that
    answers it with the string [result]. *)
Lemma C6_reconstructed_tool_calls_witness :
  let msgs := [Samples.aiWithRequest; Samples.toolAnswer (JS.JStr "result")] in
  (∀ m items, m ∈ msgs → Chat.content m = JS.JArr items →
              Forall ChatMessage.readable items)
  ∧ ∃ records,
      ChatMessage.subagentToolCalls Samples.stringify Samples.stringify Samples.stringify
        msgs = Some records
      ∧ Forall2
          (λ tc r,
             ChatMessage.status r = ChatMessage.completed
             ∧ ChatMessage.result r = Some "result"%string)
          [Samples.searchRequest] records.
Proof.
  intros msgs.
  assert (H : ∀ m items, m ∈ msgs → Chat.content m = JS.JArr items →
                         Forall ChatMessage.readable items).
  { intros m items Hm Hc. apply elem_of_cons in Hm as [->|Hm]; [done|].
    apply list_elem_of_singleton in Hm as ->. done. }
  split; [exact H|].
  destruct (C6_reconstructed_tool_calls Samples.stringify Samples.stringify
              Samples.stringify msgs H) as (records & Hrun & Hall & _).
  exists records. split; [exact Hrun|].
  inversion Hall as [|tc r ? ? (_ & _ & _ & Hr) Hnil]; subst.
  inversion Hnil; subst. simpl in Hr.
  constructor; [exact Hr | constructor].
Defined.

(** C6 as stated fails: a request whose tool-role message has no
    content is reconstructed as completed, with no result. *)
Lemma C6_counterexample :
  ¬ ∀ (JSON_stringify JSON_stringify_pretty ToString : JS.JValue → string)
      records,
      ChatMessage.subagentToolCalls JSON_stringify JSON_stringify_pretty
        ToString [Samples.aiWithRequest; Samples.toolAnswer JS.JUndefined]
      = Some records →
      Forall (λ r, ChatMessage.status r = ChatMessage.completed →
                   is_Some (ChatMessage.result r)) records.
Proof.
  intros H.
  specialize (H Samples.stringify Samples.stringify Samples.stringify _ eq_refl).
  apply Forall_cons in H as [H _].
  destruct (H eq_refl) as [r Hr]. discriminate Hr.
Qed.

(** The scenario of the specification: the update event brings the ai
    message with the request [tc1], the debug event the tool-role
    message that answers it; the reconstructed record is completed,
    with the result [result]. *)
Example scenario_tc1_completed :
  ∀ JSON_stringify JSON_stringify_pretty ToString,
    let update :=
      Chat.UpdateEvent
        {| Chat.model_messages := None;
           Chat.messages := Some [Samples.aiWithRequest] |}
        (Some ["tools:call_1"%string]) in
    let debug :=
      Chat.DebugEvent
        {| Chat.d_type := None;
           Chat.payload :=
             Some {| Chat.p_messages := None;
                     Chat.p_input_messages :=
                       Some [Samples.toolAnswer (JS.JStr "result")];
                     Chat.p_self := Samples.message "" "" "" |} |}
        (Some ["tools:call_1"%string]) in
    let s := Chat.feed [(Samples.clock, update); (Samples.clock, debug)]
                       Chat.emptySubagent in
    ChatMessage.subagentToolCalls JSON_stringify JSON_stringify_pretty ToString
      (ChatMessage.allSubagentMsgs (Some (Chat.subagentMessages s)))
    = Some [ {| ChatMessage.id := Some "tc1"%string;
                ChatMessage.name := "search";
                ChatMessage.args := JS.JObj [("q"%string, JS.JStr "x")];
                ChatMessage.status := ChatMessage.completed;
                ChatMessage.result := Some "result"%string |} ].
Proof. reflexivity. Qed.

(** * Further properties of the question queue *)

Section QueueOperations.

Import Questions.

Implicit Types (st : State) (q : Question) (qs : list Question).
Implicit Types (opts : UseQuestionsOptions).

(** The answer bound to a key: the one of the last question with that
    id that is answered with a non-empty answer. *)
Lemma collectAnswers_lookup qs k :
  collectAnswers qs !! k =
  last (List.filter (λ q, hasAnswer q && bool_decide (id q = k)) qs)
    ≫= answer.
Proof.
  induction qs as [|q qs IH] using rev_ind; [done|].
  rewrite collectAnswers_snoc, List.filter_app. simpl.
  destruct (hasAnswer q) eqn:Hq; simpl.
  - destruct (decide (id q = k)) as [<-|Hne].
    + rewrite lookup_insert_eq, bool_decide_eq_true_2 by done.
      rewrite last_snoc. simpl.
      apply hasAnswer_spec in Hq as (_ & v & -> & _). done.
    + rewrite lookup_insert_ne by done.
      rewrite bool_decide_eq_false_2 by done. by rewrite app_nil_r.
  - by rewrite app_nil_r.
Qed.

Lemma filter_imap_unchanged {A} (P : A → bool) (f : nat → A → A)
    (l : list A) :
  (∀ k x, P (f k x) = P x) → (∀ k x, P x = true → f k x = x) →
  List.filter P (imap f l) = List.filter P l.
Proof.
  revert f. induction l as [|x l IH]; intros f HP Hf; [done|].
  simpl. rewrite HP, IH by (intros; unfold compose; auto).
  destruct (P x) eqn:Hx; [|done]. by rewrite Hf.
Qed.

Lemma filter_imap_none {A} (P : A → bool) (f : nat → A → A) (l : list A) :
  (∀ k x, P (f k x) = false) → List.filter P (imap f l) = [].
Proof.
  revert f. induction l as [|x l IH]; intros f HP; [done|].
  simpl. rewrite HP, IH by (intros; unfold compose; auto). done.
Qed.

(** X1: a batch of an interrupt payload whose ids are pairwise
    distinct keeps the ids of the question set pairwise distinct. *)
Theorem X1_distinct_batch_keeps_ids_distinct uuid now items st :
  NoDup (id <$> questions st) →
  NoDup (id <$> imap (fromInput uuid now) items) →
  NoDup (id <$> questions
           (addQuestionsFromInterrupt uuid now
              {| questions_in := Some items |} st)).
Proof. apply addQuestionsFromInterrupt_NoDup. Qed.

Lemma X1_distinct_batch_keeps_ids_distinct_witness :
  let st := Samples.queue [Samples.question "q1" blocking pending None] in
  let items := [Samples.item "a" "first"; Samples.item "q1" "again";
                Samples.item "b" "second"] in
  NoDup (id <$> questions
           (addQuestionsFromInterrupt (λ _, "u"%string) (λ _, 0%Z)
              {| questions_in := Some items |} st)).
Proof.
  intros st items.
  apply (X1_distinct_batch_keeps_ids_distinct (λ _, "u"%string) (λ _, 0%Z)
           items st).
  - apply NoDup_singleton.
  - simpl. apply (bool_decide_unpack _). reflexivity.
Defined.

(** X2: [addQuestionsFromInterrupt] only appends: the questions of
    the set stay as they are and where they are; every appended
    question is pending, without answer, and has an id that the set
    did not hold; every item of the batch whose id the set did not
    hold is appended; callbacks and timers are untouched, and a
    payload without a [questions] array changes nothing. *)
Theorem X2_batch_only_appends uuid now data st :
  let st' := addQuestionsFromInterrupt uuid now data st in
  (∃ new,
     questions st' = questions st ++ new
     ∧ (∀ q, q ∈ new →
             status q = pending ∧ answer q = None ∧ answeredAt q = None
             ∧ id q ∉ id <$> questions st)
     ∧ (∀ items k item,
          questions_in data = Some items → items !! k = Some item →
          id (fromInput uuid now k item) ∉ id <$> questions st →
          fromInput uuid now k item ∈ new))
  ∧ timers st' = timers st
  ∧ calls st' = calls st
  ∧ (questions_in data = None → st' = st).
Proof.
  intros st'. subst st'. unfold addQuestionsFromInterrupt.
  destruct (questions_in data) as [items|]; simpl.
  - split_and!; try done.
    eexists. split; [reflexivity|]. split.
    + intros q Hq. apply elem_of_List_filter in Hq as [Hq Hid].
      apply negb_true_iff, bool_decide_eq_false in Hid.
      apply elem_of_lookup_imap in Hq as (k & item & -> & _).
      split_and!; try done.
      intros Hin. apply Hid. by apply elem_of_list_to_set.
    + intros items' k item [= <-] Hk Hfresh.
      apply elem_of_List_filter. split.
      * apply elem_of_lookup_imap. eauto.
      * apply negb_true_iff, bool_decide_eq_false.
        intros Hin. apply Hfresh. by apply elem_of_list_to_set in Hin.
  - split_and!; try done. exists []. rewrite app_nil_r.
    split_and!; [done | by inversion 1 | done].
Qed.

(** X3: [addQuestion] returns the generated id and appends one pending
    question with that id and no answer; the priority is [medium]
    unless given. The gate closes exactly when the new question is
    blocking, and the record of answers is unchanged. *)
Theorem X3_addQuestion_appends_pending uuid now t o st :
  let r := addQuestion uuid now t o st in
  r.1 = uuid
  ∧ ∃ q,
      questions r.2 = questions st ++ [q]
      ∧ id q = uuid ∧ text q = t ∧ status q = pending ∧ answer q = None
      ∧ priority q = default medium (o ≫= add_priority)
      ∧ canProceed r.2
        = canProceed st && negb (bool_decide (priority q = blocking))
      ∧ getAllAnswers r.2 = getAllAnswers st.
Proof.
  simpl. split; [done|]. eexists. split; [reflexivity|].
  split_and!; try done.
  - unfold canProceed. simpl. rewrite existsb_app. simpl.
    rewrite orb_false_r, negb_orb. f_equal.
    unfold isBlockingPending. simpl.
    by rewrite ?andb_true_r.
  - unfold getAllAnswers. simpl. by rewrite collectAnswers_snoc.
Qed.

Lemma List_filter_idemp {A} (f : A → bool) (l : list A) :
  List.filter f (List.filter f l) = List.filter f l.
Proof.
  induction l as [|x l IH]; [done|]. simpl.
  destruct (f x) eqn:Hx; simpl; [by rewrite Hx, IH | done].
Qed.

Lemma List_filter_filter_implied {A} (f g : A → bool) (l : list A) :
  (∀ x, f x = true → g x = true) →
  List.filter f (List.filter g l) = List.filter f l.
Proof.
  intros Hfg. induction l as [|x l IH]; [done|]. simpl.
  destruct (g x) eqn:Hg; simpl.
  - by rewrite IH.
  - destruct (f x) eqn:Hf; [|done]. rewrite Hfg in Hg; done.
Qed.

Lemma List_filter_sublist {A} (f : A → bool) (l : list A) :
  List.filter f l `sublist_of` l.
Proof.
  induction l as [|x l IH]; [done|]. simpl.
  destruct (f x); by constructor.
Qed.

Lemma List_filter_split {A} (f g : A → bool) (l : list A) :
  (∀ x, g x = negb (f x)) →
  List.filter f l ++ List.filter g l ≡ₚ l.
Proof.
  intros Hg. induction l as [|x l IH]; [done|]. simpl. rewrite Hg.
  destruct (f x); simpl.
  - by rewrite IH.
  - by rewrite <- Permutation_middle, IH.
Qed.

(** X4: [clearAnswered] keeps exactly the pending questions, in their
    order; doing it twice is doing it once; it leaves the gate and the
    unanswered blocking questions as they are and empties the record
    of answers. *)
Theorem X4_clearAnswered_keeps_pending st :
  let st' := clearAnswered st in
  (∀ q, q ∈ questions st' ↔ q ∈ questions st ∧ status q = pending)
  ∧ questions st' `sublist_of` questions st
  ∧ clearAnswered st' = st'
  ∧ canProceed st' = canProceed st
  ∧ getUnansweredBlockingQuestions st' = getUnansweredBlockingQuestions st
  ∧ getAllAnswers st' = ∅.
Proof.
  assert (Himp : ∀ q, isBlockingPending q = true → isPending q = true).
  { intros q Hq. apply isBlockingPending_spec in Hq as [Hq _].
    by apply bool_decide_eq_true. }
  simpl. split_and!.
  - intros q. rewrite elem_of_List_filter. unfold isPending.
    by rewrite bool_decide_eq_true.
  - apply List_filter_sublist.
  - unfold clearAnswered, setQuestions. simpl. by rewrite List_filter_idemp.
  - unfold canProceed. simpl. f_equal.
    apply eq_true_iff_eq. rewrite !existsb_exists. split.
    + intros (q & Hq & Hb). apply filter_In in Hq as [Hq _]. eauto.
    + intros (q & Hq & Hb). exists q. split; [|done].
      apply filter_In. auto.
  - unfold getUnansweredBlockingQuestions. simpl.
    by apply List_filter_filter_implied.
  - unfold getAllAnswers, collectAnswers. simpl.
    assert (List.filter hasAnswer (List.filter isPending (questions st)) = [])
      as ->; [|done].
    induction (questions st) as [|q l IH]; [done|]. simpl.
    destruct (isPending q) eqn:Hp; [|done]. simpl. rewrite IH.
    unfold isPending in Hp. apply bool_decide_eq_true in Hp.
    unfold hasAnswer. rewrite Hp. done.
Qed.

(** X5: the derived views agree with the questions: every question
    is in exactly one of [pendingQuestions] and [answeredQuestions],
    [hasBlockingQuestions] is the negation of [canProceed()], and
    [blockingCount] counts [getUnansweredBlockingQuestions()]. *)
Theorem X5_derived_views_agree st :
  pendingQuestions (questions st) ++ answeredQuestions (questions st)
    ≡ₚ questions st
  ∧ (∀ q, q ∈ pendingQuestions (questions st) →
          q ∉ answeredQuestions (questions st))
  ∧ hasBlockingQuestions (questions st) = negb (canProceed st)
  ∧ blockingCount (questions st)
    = length (getUnansweredBlockingQuestions st)
  ∧ (hasBlockingQuestions (questions st) = true ↔
     0 < blockingCount (questions st)).
Proof.
  assert (Hfilter : ∀ l,
            List.filter (λ q, bool_decide (priority q = blocking))
                        (List.filter isPending l)
            = List.filter isBlockingPending l).
  { induction l as [|q l IH]; [done|]. simpl.
    unfold isBlockingPending at 1.
    destruct (isPending q) eqn:Hp; unfold isPending in Hp; rewrite Hp; simpl.
    - rewrite andb_true_r. destruct (bool_decide _); by rewrite IH.
    - by rewrite andb_false_r. }
  assert (Hexists : ∀ l,
            existsb (λ q, bool_decide (priority q = blocking))
                    (List.filter isPending l)
            = existsb isBlockingPending l).
  { induction l as [|q l IH]; [done|]. simpl.
    unfold isBlockingPending at 1.
    destruct (isPending q) eqn:Hp; unfold isPending in Hp; rewrite Hp; simpl.
    - by rewrite andb_true_r, IH.
    - by rewrite andb_false_r, IH. }
  assert (Hcount : blockingCount (questions st)
                   = length (getUnansweredBlockingQuestions st)).
  { unfold blockingCount, pendingQuestions, getUnansweredBlockingQuestions.
    by rewrite Hfilter. }
  assert (Hhas : hasBlockingQuestions (questions st) = negb (canProceed st)).
  { unfold hasBlockingQuestions, pendingQuestions, canProceed.
    by rewrite negb_involutive, Hexists. }
  split_and!.
  - apply List_filter_split. intros q. unfold isPending.
    by destruct (status q).
  - intros q Hp Ha. apply elem_of_List_filter in Hp as [_ Hp].
    apply elem_of_List_filter in Ha as [_ Ha].
    unfold isPending in Hp. apply bool_decide_eq_true in Hp.
    rewrite Hp in Ha. done.
  - exact Hhas.
  - exact Hcount.
  - rewrite Hhas, Hcount, negb_true_iff. unfold canProceed.
    rewrite negb_false_iff. unfold getUnansweredBlockingQuestions.
    clear. induction (questions st) as [|q l IH]; simpl; [split; [done | lia]|].
    destruct (isBlockingPending q); simpl; [split; [lia | done] | done].
Qed.

(** X6: [answerQuestion] hands the resume callback to the timer queue
    exactly when the caller supplied it and [canProceed()] holds after
    the update, whether or not the id named a question; it does so at
    each run of the updater that schedules it, and the record it hands
    over is each time what [getAllAnswers()] returns afterwards. In
    every other case the timer queue is untouched. *)
Theorem X6_resume_scheduled_iff_gate_open opts reruns now i a st :
  let st' := answerQuestion opts reruns now i a st in
  (onResumeWithAnswers opts = true ∧ canProceed st' = true
   ∧ timers st' = timers st ++ replicate (S reruns) (getAllAnswers st'))
  ∨ ((onResumeWithAnswers opts = false ∨ canProceed st' = false)
     ∧ timers st' = timers st).
Proof.
  intros st'. pose proof (answerQuestion_timers opts reruns now i a st) as Ht.
  cbv zeta in Ht. fold st' in Ht. rewrite Ht.
  destruct (canProceed st'), (onResumeWithAnswers opts);
    cbn [andb]; cbv iota; rewrite ?app_nil_r; auto.
Qed.

Lemma answerQuestion_binds opts reruns now i a st q :
  a ≠ ""%string → q ∈ questions st → id q = i →
  getAllAnswers (answerQuestion opts reruns now i a st) !! i = Some a.
Proof.
  intros Ha Hq Hid. unfold getAllAnswers. rewrite answerQuestion_questions.
  set (f := λ idx q,
         if bool_decide (id q = i) then markAnswered a (now idx) q else q).
  apply list_elem_of_lookup in Hq as [k Hk].
  assert (Hin : f k q ∈ imap f (questions st)).
  { apply elem_of_lookup_imap. eauto. }
  assert (Hfq : f k q = markAnswered a (now k) q).
  { unfold f. by rewrite bool_decide_eq_true_2. }
  assert (Hans : hasAnswer (f k q) = true).
  { rewrite Hfq. apply hasAnswer_spec. split; [done|]. eauto. }
  destruct (collectAnswers_lookup_elem _ _ Hin Hans)
    as (q' & Hq' & _ & Hid' & Hlook).
  rewrite Hfq in Hlook, Hid'. simpl in Hlook, Hid'.
  rewrite Hid in Hlook, Hid'. rewrite Hlook.
  apply elem_of_lookup_imap in Hq' as (k0 & q0 & -> & _). unfold f in *.
  case_bool_decide as Hq0; [done|]. congruence.
Qed.

(** X7: after [answerQuestion] with a non-empty answer for an id that
    a question of the set has, [getAllAnswers()] binds that id to the
    answer; the binding of every other id is what it was. *)
Theorem X7_answer_then_getAllAnswers opts reruns now i a st :
  a ≠ ""%string →
  (∃ q, q ∈ questions st ∧ id q = i) →
  let st' := answerQuestion opts reruns now i a st in
  getAllAnswers st' !! i = Some a
  ∧ ∀ k, k ≠ i → getAllAnswers st' !! k = getAllAnswers st !! k.
Proof.
  intros Ha (q & Hq & Hid) st'. split.
  - by eapply answerQuestion_binds.
  - unfold getAllAnswers. subst st'. rewrite answerQuestion_questions.
    intros k Hk. rewrite !collectAnswers_lookup. f_equal. f_equal.
    apply filter_imap_unchanged.
    + intros idx x. case_bool_decide as Hx; [|done]. simpl.
      rewrite !bool_decide_eq_false_2 by congruence.
      by rewrite !andb_false_r.
    + intros idx x Hx. apply andb_true_iff in Hx as [_ Hx].
      apply bool_decide_eq_true in Hx.
      rewrite bool_decide_eq_false_2 by congruence. done.
Qed.

Lemma X7_answer_then_getAllAnswers_witness :
  let st :=
    Samples.queue [Samples.question "q1" blocking pending None;
                   Samples.question "q2" high answered (Some "yes"%string)] in
  let st' := answerQuestion Samples.callbacks 1 Samples.dates "q1" "REST" st in
  getAllAnswers st' !! "q1"%string = Some "REST"%string
  ∧ ∀ k, k ≠ "q1"%string → getAllAnswers st' !! k = getAllAnswers st !! k.
Proof.
  intros st st'.
  apply (X7_answer_then_getAllAnswers Samples.callbacks 1 Samples.dates
           "q1" "REST" st).
  - done.
  - eexists. split; [apply list_elem_of_here | done].
Defined.

(** X8: [skipQuestion] invokes no callback and schedules nothing, even
    when it opens the gate; afterwards [getAllAnswers()] has no entry
    for the skipped id and its other entries are what they were. When
    every pending blocking question has the given id, [canProceed()]
    holds afterwards. *)
Theorem X8_skip_never_resumes now i st :
  let st' := skipQuestion now i st in
  timers st' = timers st
  ∧ calls st' = calls st
  ∧ getAllAnswers st' !! i = None
  ∧ (∀ k, k ≠ i → getAllAnswers st' !! k = getAllAnswers st !! k)
  ∧ ((∀ q, q ∈ questions st →
           status q = pending → priority q = blocking → id q = i) →
     canProceed st' = true).
Proof.
  intros st'. split_and!; try done.
  - unfold getAllAnswers. rewrite collectAnswers_lookup. subst st'.
    rewrite skipQuestion_questions, filter_imap_none; [done|].
    intros idx x. case_bool_decide as Hx; simpl.
    + unfold hasAnswer. done.
    + by rewrite bool_decide_eq_false_2, andb_false_r.
  - intros k Hk. unfold getAllAnswers. rewrite !collectAnswers_lookup.
    subst st'. rewrite skipQuestion_questions. f_equal. f_equal.
    apply filter_imap_unchanged.
    + intros idx x. case_bool_decide as Hx; [|done]. simpl.
      rewrite !bool_decide_eq_false_2 by congruence.
      by rewrite !andb_false_r.
    + intros idx x Hx. apply andb_true_iff in Hx as [_ Hx].
      apply bool_decide_eq_true in Hx.
      rewrite bool_decide_eq_false_2 by congruence. done.
  - intros Hlast. apply canProceed_spec. intros q' Hq' [Hp Hb].
    subst st'. rewrite skipQuestion_questions in Hq'.
    apply elem_of_lookup_imap in Hq' as (idx & q & -> & Hq).
    apply list_elem_of_lookup_2 in Hq.
    case_bool_decide as Hid; [discriminate|].
    apply Hid. by apply Hlast.
Qed.

(** *** Invariants of the reachable states *)

Lemma coherent_imap (f g : nat → Question → Question) i qs :
  (∀ k q, id (g k q) = id q) →
  (∀ k1 k2 q1 q2,
     status q1 = status q2 ∧ answer q1 = answer q2 →
     status (g k1 q1) = status (g k2 q2)
     ∧ answer (g k1 q1) = answer (g k2 q2)) →
  (∀ k q, f k q = if bool_decide (id q = i) then g k q else q) →
  coherent qs → coherent (imap f qs).
Proof.
  intros Hid Hg Hf Hc q1' q2' H1 H2 Heq.
  apply elem_of_lookup_imap in H1 as (k1 & q1 & -> & H1).
  apply elem_of_lookup_imap in H2 as (k2 & q2 & -> & H2).
  apply list_elem_of_lookup_2 in H1, H2.
  rewrite !Hf in *.
  destruct (bool_decide (id q1 = i)) eqn:E1;
    destruct (bool_decide (id q2 = i)) eqn:E2;
    try apply bool_decide_eq_true in E1; try apply bool_decide_eq_true in E2;
    try apply bool_decide_eq_false in E1; try apply bool_decide_eq_false in E2.
  - apply Hg. rewrite !Hid in Heq. by apply Hc.
  - rewrite Hid in Heq. congruence.
  - rewrite Hid in Heq. congruence.
  - by apply Hc.
Qed.

Lemma reachable_invariant st :
  reachable st → Forall stamped (questions st) ∧ coherent (questions st).
Proof.
  induction 1 as [| uuid now t o st _ [IHs IHc] Hfresh
                  | uuid now data st _ [IHs IHc]
                  | opts reruns now i a st _ [IHs IHc]
                  | now i st _ [IHs IHc]
                  | st _ [IHs IHc] | st _ _ | st _ IH].
  - split; [constructor | by intros q1 q2 H; inversion H].
  - simpl. split.
    + apply Forall_app. split; [done|]. by repeat constructor.
    + intros q1 q2 H1 H2 Heq.
      apply elem_of_app in H1 as [H1|H1]; apply elem_of_app in H2 as [H2|H2].
      * by apply IHc.
      * apply list_elem_of_singleton in H2 as ->. simpl in Heq.
        exfalso. apply Hfresh. rewrite <- Heq. by apply list_elem_of_fmap_2.
      * apply list_elem_of_singleton in H1 as ->. simpl in Heq.
        exfalso. apply Hfresh. rewrite Heq. by apply list_elem_of_fmap_2.
      * apply list_elem_of_singleton in H1 as ->.
        by apply list_elem_of_singleton in H2 as ->.
  - unfold addQuestionsFromInterrupt.
    destruct (questions_in data) as [items|]; [|done]. simpl.
    set (new := List.filter _ _).
    assert (Hnew : ∀ q, q ∈ new →
              status q = pending ∧ answer q = None ∧ answeredAt q = None
              ∧ id q ∉ id <$> questions st).
    { intros q Hq. apply elem_of_List_filter in Hq as [Hq Hid].
      apply negb_true_iff, bool_decide_eq_false in Hid.
      apply elem_of_lookup_imap in Hq as (k & item & -> & _).
      split_and!; try done.
      intros Hin. apply Hid. by apply elem_of_list_to_set. }
    split.
    + apply Forall_app. split; [done|]. apply Forall_forall. intros q Hq.
      destruct (Hnew q Hq) as (Hs & Ha & Ht & _). unfold stamped.
      by rewrite Hs.
    + intros q1 q2 H1 H2 Heq.
      apply elem_of_app in H1 as [H1|H1]; apply elem_of_app in H2 as [H2|H2].
      * by apply IHc.
      * destruct (Hnew q2 H2) as (_ & _ & _ & Hf). exfalso. apply Hf.
        rewrite <- Heq. by apply list_elem_of_fmap_2.
      * destruct (Hnew q1 H1) as (_ & _ & _ & Hf). exfalso. apply Hf.
        rewrite Heq. by apply list_elem_of_fmap_2.
      * destruct (Hnew q1 H1) as (-> & -> & _ & _).
        by destruct (Hnew q2 H2) as (-> & -> & _ & _).
  - rewrite answerQuestion_questions. split.
    + apply Forall_forall. intros q' Hq'.
      apply elem_of_lookup_imap in Hq' as (k & q & -> & Hq).
      apply list_elem_of_lookup_2 in Hq.
      case_bool_decide; [|by eapply Forall_forall in IHs].
      unfold stamped. simpl. eauto.
    + by apply (coherent_imap _ (λ k, markAnswered a (now k)) i).
  - rewrite skipQuestion_questions. split.
    + apply Forall_forall. intros q' Hq'.
      apply elem_of_lookup_imap in Hq' as (k & q & -> & Hq).
      apply list_elem_of_lookup_2 in Hq.
      case_bool_decide; [|by eapply Forall_forall in IHs].
      unfold stamped. simpl. eauto.
    + apply (coherent_imap _ (λ k, markSkipped (now k)) i); try done.
      by intros k1 k2 q1 q2 (_ & ?).
  - simpl. split.
    + apply Forall_forall. intros q Hq.
      apply elem_of_List_filter in Hq as [Hq _].
      by eapply Forall_forall in IHs.
    + intros q1 q2 H1 H2. apply elem_of_List_filter in H1 as [H1 _].
      apply elem_of_List_filter in H2 as [H2 _]. by apply IHc.
  - simpl. split; [constructor | by intros q1 q2 H'; inversion H'].
  - exact IH.
Qed.

(** X9: in every state the hook can reach, a pending question
    carries no answer and no answer time, an answered question carries
    an answer and an answer time, and a skipped question carries an
    answer time; questions that share an id share status and answer. *)
Theorem X9_reachable_questions_are_stamped st :
  reachable st →
  (∀ q, q ∈ questions st →
        match status q with
        | pending => answer q = None ∧ answeredAt q = None
        | answered => is_Some (answer q) ∧ is_Some (answeredAt q)
        | skipped => is_Some (answeredAt q)
        end)
  ∧ (∀ q1 q2, q1 ∈ questions st → q2 ∈ questions st → id q1 = id q2 →
              status q1 = status q2 ∧ answer q1 = answer q2).
Proof.
  intros Hr. destruct (reachable_invariant st Hr) as [Hs Hc].
  split; [|exact Hc]. intros q Hq. by eapply Forall_forall in Hs.
Qed.

(** X10: in every state the hook can reach, [getAllAnswers()] holds
    exactly the pairs of the id and the answer of the questions that
    are answered with a non-empty answer. *)
Theorem X10_reachable_getAllAnswers_exact st :
  reachable st →
  ∀ k v,
    getAllAnswers st !! k = Some v ↔
    ∃ q, q ∈ questions st ∧ id q = k ∧ status q = answered
         ∧ answer q = Some v ∧ v ≠ ""%string.
Proof.
  intros Hr k v. destruct (reachable_invariant st Hr) as [_ Hc].
  unfold getAllAnswers. split.
  - intros Hk.
    apply collectAnswers_lookup_Some in Hk as (q & Hq & Hans & Hid & Hv).
    exists q. apply hasAnswer_spec in Hans as (Hs & v' & Hv' & Hne).
    split_and!; try done. congruence.
  - intros (q & Hq & <- & Hs & Hv & Hne).
    assert (Hans : hasAnswer q = true) by (apply hasAnswer_spec; eauto).
    destruct (collectAnswers_lookup_elem _ _ Hq Hans)
      as (q' & Hq' & _ & Hid & ->).
    destruct (Hc q' q Hq' Hq Hid) as (_ & ->). done.
Qed.

(** *** Answering from a card *)

(** X11: a card never submits an empty answer. With [answerQuestion]
    as its [onAnswer] callback, submitting either does nothing, or
    calls [answerQuestion] for the id of the card's question with a non-empty answer (the selected option when the
    question has an options array, the typed text otherwise) and
    clears both inputs; [getAllAnswers()] then binds the id to that
    answer when the set holds the question. When the question has an
    options array, even an empty one, and no option is selected,
    nothing is submitted whatever text was typed. The Enter key without
    Shift submits in the same way; any other key does nothing. *)
Theorem X11_card_never_submits_empty opts reruns now q card st :
  let r := QuestionCard.submitToQueue opts reruns now q card st in
  (r = (card, st)
   ∨ ∃ a, a ≠ ""%string
          ∧ a = match options q with
                | Some _ => default ""%string (QuestionCard.selectedOption card)
                | None => QuestionCard.answerText card
                end
          ∧ r.2 = answerQuestion opts reruns now (id q) a st
          ∧ QuestionCard.answerText r.1 = ""%string
          ∧ QuestionCard.selectedOption r.1 = None
          ∧ QuestionCard.expanded r.1 = QuestionCard.expanded card
          ∧ (q ∈ questions st → getAllAnswers r.2 !! id q = Some a))
  ∧ (is_Some (options q) → QuestionCard.selectedOption card = None →
     r = (card, st))
  ∧ QuestionCard.handleKeyDown q "Enter" false card
    = QuestionCard.handleSubmitAnswer q card
  ∧ (∀ key shift, key ≠ "Enter"%string ∨ shift = true →
                  QuestionCard.handleKeyDown q key shift card = (None, card)).
Proof.
  unfold QuestionCard.submitToQueue, QuestionCard.handleSubmitAnswer.
  split_and!.
  - destruct (options q) as [os|]; simpl.
    + destruct (QuestionCard.selectedOption card) as [o|]; simpl; [|by left].
      destruct (String.eqb o "") eqn:E; simpl; [by left|].
      apply String.eqb_neq in E. right. exists o. split_and!; try done.
      intros Hq. by eapply answerQuestion_binds.
    + destruct (String.eqb (QuestionCard.answerText card) "") eqn:E; simpl;
        [by left|].
      apply String.eqb_neq in E. right. eexists. split_and!; try done.
      intros Hq. by eapply answerQuestion_binds.
  - intros [os ->] ->. done.
  - done.
  - intros key shift [Hk| ->]; unfold QuestionCard.handleKeyDown.
    + by rewrite bool_decide_eq_false_2.
    + by rewrite andb_false_r.
Qed.

End QueueOperations.

(** A state the hook reaches: a blocking question is added and
    answered, a second one arrives in a batch and is skipped. *)
Lemma sample_reachable :
  Questions.reachable
    (Questions.skipQuestion Samples.dates "b"
       (Questions.addQuestionsFromInterrupt (λ _, "u2"%string) (λ _, 8%Z)
          {| Questions.questions_in := Some [Samples.item "b" "second"] |}
          (Questions.answerQuestion Samples.callbacks 1 Samples.dates
             "u1" "REST"
             (Questions.addQuestion "u1" 6 "Use REST or GraphQL?" None
                Questions.initial).2))).
Proof.
  apply Questions.reach_skipQuestion,
    Questions.reach_addQuestionsFromInterrupt, Questions.reach_answerQuestion,
    Questions.reach_addQuestion; [apply Questions.reach_initial|].
  simpl. by inversion 1.
Defined.

Lemma X9_reachable_questions_are_stamped_witness :
  let st :=
    Questions.skipQuestion Samples.dates "b"
      (Questions.addQuestionsFromInterrupt (λ _, "u2"%string) (λ _, 8%Z)
         {| Questions.questions_in := Some [Samples.item "b" "second"] |}
         (Questions.answerQuestion Samples.callbacks 1 Samples.dates
            "u1" "REST"
            (Questions.addQuestion "u1" 6 "Use REST or GraphQL?" None
               Questions.initial).2)) in
  Questions.reachable st
  ∧ Questions.status <$> Questions.questions st
    = [Questions.answered; Questions.skipped]
  ∧ ∀ q, q ∈ Questions.questions st →
         match Questions.status q with
         | Questions.pending =>
             Questions.answer q = None ∧ Questions.answeredAt q = None
         | Questions.answered =>
             is_Some (Questions.answer q) ∧ is_Some (Questions.answeredAt q)
         | Questions.skipped => is_Some (Questions.answeredAt q)
         end.
Proof.
  intros st. split; [exact sample_reachable|]. split; [reflexivity|].
  exact (proj1 (X9_reachable_questions_are_stamped st sample_reachable)).
Defined.

Lemma X10_reachable_getAllAnswers_exact_witness :
  let st :=
    Questions.skipQuestion Samples.dates "b"
      (Questions.addQuestionsFromInterrupt (λ _, "u2"%string) (λ _, 8%Z)
         {| Questions.questions_in := Some [Samples.item "b" "second"] |}
         (Questions.answerQuestion Samples.callbacks 1 Samples.dates
            "u1" "REST"
            (Questions.addQuestion "u1" 6 "Use REST or GraphQL?" None
               Questions.initial).2)) in
  Questions.reachable st
  ∧ ∀ k v,
      Questions.getAllAnswers st !! k = Some v ↔
      ∃ q, q ∈ Questions.questions st ∧ Questions.id q = k
           ∧ Questions.status q = Questions.answered
           ∧ Questions.answer q = Some v ∧ v ≠ ""%string.
Proof.
  intros st. split; [exact sample_reachable|].
  exact (X10_reachable_getAllAnswers_exact st sample_reachable).
Defined.

(** * Further properties of the demultiplexer *)

Section DemuxInvariants.

Import JS Chat.

Implicit Types (s : Subagent) (msg m : Message) (ev : StreamEvent).
Implicit Types (k i : string) (now : Clock).

(** *** Ids are never empty *)

Lemma append_nonempty_r (a b : string) : b ≠ ""%string → a +:+ b ≠ ""%string.
Proof. destruct a; [done|]. by intros _. Qed.

Lemma orStr_nonempty o d : d ≠ ""%string → orStr o d ≠ ""%string.
Proof.
  intros Hd. destruct o as [str|]; simpl; [|done].
  destruct (String.eqb str "") eqn:E; [done|]. by apply String.eqb_neq.
Qed.

Lemma updateFallbackId_nonempty k idx t : updateFallbackId k idx t ≠ ""%string.
Proof. unfold updateFallbackId. by apply append_nonempty_r. Qed.

Lemma debugFallbackId_nonempty k idx t : debugFallbackId k idx t ≠ ""%string.
Proof. done. Qed.

Lemma debugToolFallbackId_nonempty t : debugToolFallbackId t ≠ ""%string.
Proof. done. Qed.

(** *** What every event preserves *)

(** A property of the store that [track] preserves for every
    non-empty id is preserved by every event. *)
Lemma handle_preserves (Inv : Subagent → Prop) :
  (∀ k i msg s, i ≠ ""%string → Inv s → Inv (track k i msg s)) →
  ∀ now ev s, Inv s → Inv (handle now ev s).
Proof.
  intros Htrack now ev s.
  assert (Hloop : ∀ k (fallback : Message → nat → string) ms n st,
            (∀ msg idx, fallback msg idx ≠ ""%string) →
            Inv st →
            Inv (forEachFrom
                   (λ msg idx, track k (orStr (id msg) (fallback msg idx)) msg)
                   ms n st)).
  { intros k fallback ms n st Hfb. revert n st.
    apply (forEachFrom_rel (λ a b, Inv a → Inv b)); [done | auto |].
    intros x idx st' _. apply Htrack. by apply orStr_nonempty. }
  destruct ev as [data [[|seg rest]|]|data [[|seg rest]|]]; simpl; try done.
  - destruct (model_messages data) as [ms|];
      [|destruct (messages data) as [ms|]; [|done]];
      apply (Hloop _ (λ _ idx, updateFallbackId _ idx (now 0 idx)));
      intros; apply updateFallbackId_nonempty.
  - intros Hs.
    assert (Inv (forEach
                   (λ messages src,
                      forEach
                        (λ msg idx,
                           track (toolCallIdOf seg)
                             (orStr (id msg)
                                (debugFallbackId (toolCallIdOf seg) idx
                                   (now src idx))) msg)
                        messages)
                   (messageSources (payload data)) s)) as Hs1.
    { revert Hs. unfold forEach at 1.
      apply (forEachFrom_rel (λ a b, Inv a → Inv b)); [done | auto |].
      intros ms src st _.
      apply (Hloop _ (λ _ idx, debugFallbackId _ idx (now src idx))).
      intros. apply debugFallbackId_nonempty. }
    destruct (payload data) as [p|]; [|done].
    case_bool_decide; [|done].
    apply Htrack; [|done]. apply orStr_nonempty, debugToolFallbackId_nonempty.
Qed.

Lemma feed_preserves (Inv : Subagent → Prop) :
  (∀ k i msg s, i ≠ ""%string → Inv s → Inv (track k i msg s)) →
  ∀ evs s, Inv s → Inv (feed evs s).
Proof.
  intros Htrack evs. induction evs as [|e evs IH]; intros s Hs; simpl; [done|].
  by apply IH, handle_preserves.
Qed.

Lemma track_recorded k i msg s :
  i ≠ ""%string → recorded s → recorded (track k i msg s).
Proof.
  intros Hi Hrec k' m Hm.
  destruct (decide (k = k')) as [<-|Hne].
  - rewrite track_logs in Hm. destruct (findId i (logs s k)).
    + destruct (Hrec k m Hm) as (j & ? & ? & ?). exists j.
      split_and!; try done. simpl. apply elem_of_union. by right.
    + apply elem_of_app in Hm as [Hm|Hm].
      * destruct (Hrec k m Hm) as (j & ? & ? & ?). exists j.
        split_and!; try done. simpl. apply elem_of_union. by right.
      * apply list_elem_of_singleton in Hm as ->. exists i.
        split_and!; try done. simpl. apply elem_of_union. left.
        by apply elem_of_singleton.
  - unfold logs in Hm. rewrite track_other in Hm by done.
    destruct (Hrec k' m Hm) as (j & ? & ? & ?). exists j.
    split_and!; try done. simpl. apply elem_of_union. by right.
Qed.

Lemma track_seen_grows k i msg s (X : gset string) :
  X ⊆ subagentMessageIds s → X ⊆ subagentMessageIds (track k i msg s).
Proof. intros HX x Hx. simpl. apply elem_of_union. right. by apply HX. Qed.

(** An id that an event carries is in the set of seen ids afterwards,
    also when its message was dropped as a duplicate. *)
Lemma handle_carries_seen now ev k i s :
  carries ev k i → i ∈ subagentMessageIds (handle now ev s).
Proof.
  intros ((seg & rest & Hns & <-) & Hi & msg & Hmsg & Hid).
  set (k := toolCallIdOf seg).
  assert (Hkeep : ∀ j y st,
            i ∈ subagentMessageIds st → i ∈ subagentMessageIds (track k j y st)).
  { intros j y st Hst. simpl. apply elem_of_union. by right. }
  assert (Hhit : ∀ d st, i ∈ subagentMessageIds (track k (orStr (id msg) d) msg st)).
  { intros d st. rewrite Hid, orStr_present by done. simpl.
    apply elem_of_union. left. by apply elem_of_singleton. }
  destruct ev as [data ns|data ns]; simpl in Hns; subst ns; simpl; fold k.
  - simpl in Hmsg.
    assert (∃ ms, match model_messages data with
                  | Some ms => Some ms | None => messages data end = Some ms
                  ∧ msg ∈ ms) as (ms & -> & Hin).
    { destruct (model_messages data) as [ms|]; [eauto|].
      destruct (messages data) as [ms|]; [eauto | by inversion Hmsg]. }
    apply (forEachFrom_reach (λ st, i ∈ subagentMessageIds st) _ ms msg Hin).
    + intros idx st. apply Hhit.
    + intros y idx st. apply Hkeep.
  - simpl in Hmsg. apply elem_of_app in Hmsg as [Hmsg|Hmsg].
    + apply elem_of_concat in Hmsg as (src & Hsrc & Hin).
      assert (Hloops :
        i ∈ subagentMessageIds
          (forEach
             (λ messages srcIdx,
                forEach
                  (λ msg idx,
                     track k (orStr (id msg)
                                (debugFallbackId k idx (now srcIdx idx))) msg)
                  messages)
             (messageSources (payload data)) s)).
      { apply (forEachFrom_reach (λ st, i ∈ subagentMessageIds st) _ _ src Hsrc).
        - intros srcIdx st.
          apply (forEachFrom_reach (λ st, i ∈ subagentMessageIds st)
                   _ src msg Hin).
          + intros idx st'. apply Hhit.
          + intros y idx st'. apply Hkeep.
        - intros y srcIdx st Hst. unfold forEach.
          revert Hst. generalize 0. revert st.
          induction y as [|m' y IHy]; intros st n Hst; simpl; [done|].
          apply IHy, Hkeep, Hst. }
      destruct (payload data) as [p|]; [|done].
      case_bool_decide; [by apply Hkeep | done].
    + destruct (payload data) as [p|]; [|by inversion Hmsg].
      case_bool_decide; [|by inversion Hmsg].
      apply list_elem_of_singleton in Hmsg as ->. apply Hhit.
Qed.

(** X12: after any sequence of events from the empty store, every
    logged message has a non-empty id and the set of seen ids holds
    it; the set of seen ids only grows, and it holds every id that an
    event carried, also of a message dropped as a duplicate. *)
Theorem X12_logged_ids_are_seen (evs : list (Clock * StreamEvent)) :
  (∀ k m, m ∈ logs (feed evs emptySubagent) k →
          ∃ i, id m = Some i ∧ i ≠ ""%string
               ∧ i ∈ subagentMessageIds (feed evs emptySubagent))
  ∧ (∀ now ev s,
       subagentMessageIds s ⊆ subagentMessageIds (handle now ev s))
  ∧ (∀ now ev k i s,
       carries ev k i → i ∈ subagentMessageIds (handle now ev s)).
Proof.
  split_and!.
  - apply (feed_preserves recorded).
    + intros. by apply track_recorded.
    + intros k m Hm. by inversion Hm.
  - intros now ev s.
    apply (handle_preserves (λ s', subagentMessageIds s ⊆ subagentMessageIds s'));
      [|done].
    intros k i msg s' _. apply track_seen_grows.
  - intros. by eapply handle_carries_seen.
Qed.

(** *** Replaying an event *)

Lemma track_known k i msg s :
  i ∈ subagentMessageIds s → Some i ∈ id <$> logs s k →
  track k i msg s = s.
Proof.
  intros Hseen Hlog.
  pose proof (track_dropped k i msg s Hlog) as Hmsgs.
  destruct s as [ids msgs]. unfold track in *. simpl in *.
  rewrite Hmsgs. f_equal. by apply subseteq_union_1_L, singleton_subseteq_l.
Qed.

Lemma forEachFrom_fixed {A St} (f : A → nat → St → St) (xs : list A) st :
  (∀ x idx, x ∈ xs → f x idx st = st) →
  ∀ n, forEachFrom f xs n st = st.
Proof.
  induction xs as [|x xs IH]; intros Hfix n; simpl; [done|].
  rewrite Hfix by apply list_elem_of_here.
  apply IH. intros y idx Hy. apply Hfix. by right.
Qed.

(** X13: handling again an event whose messages all carry an id
    changes nothing, whatever the clock reads the second time: neither
    the logs nor the set of seen ids. *)
Theorem X13_replayed_event_changes_nothing now now' ev s :
  (∀ m, m ∈ candidates ev → truthyStr (id m) = true) →
  handle now' ev (handle now ev s) = handle now ev s.
Proof.
  intros Hids.
  destruct (namespaceOf ev) as [[|seg rest]|] eqn:Hns;
    [by rewrite !handle_no_namespace by auto | |
     by rewrite !handle_no_namespace by auto].
  set (s1 := handle now ev s). set (k := toolCallIdOf seg).
  assert (Hknown : ∀ m d, m ∈ candidates ev →
            track k (orStr (id m) d) m s1 = s1).
  { intros m d Hm. specialize (Hids m Hm).
    destruct (id m) as [i|] eqn:Hid; [|done]. simpl in Hids.
    apply negb_true_iff, String.eqb_neq in Hids.
    rewrite orStr_present by done.
    assert (Hc : carries ev k i).
    { split_and!; [by exists seg, rest | done | eauto]. }
    apply track_known.
    - by eapply handle_carries_seen.
    - by apply handle_carries. }
  clearbody s1.
  destruct ev as [data ns|data ns]; simpl in Hns; subst ns; simpl in *; fold k.
  - destruct (model_messages data) as [ms|];
      [|destruct (messages data) as [ms|]; [|done]];
      apply forEachFrom_fixed; intros x idx Hx; by apply Hknown.
  - assert (Hloops :
      forEach
        (λ messages src,
           forEach
             (λ msg idx,
                track k (orStr (id msg)
                           (debugFallbackId k idx (now' src idx))) msg)
             messages)
        (messageSources (payload data)) s1 = s1).
    { apply forEachFrom_fixed. intros src srcIdx Hsrc.
      apply forEachFrom_fixed. intros x idx Hx. apply Hknown.
      apply elem_of_app. left. apply elem_of_concat. eauto. }
    rewrite Hloops.
    destruct (payload data) as [p|]; [|done].
    case_bool_decide; [|done].
    apply Hknown. apply elem_of_app. right. apply list_elem_of_here.
Qed.

Lemma X13_replayed_event_changes_nothing_witness :
  (∀ m, m ∈ candidates Samples.debugWithM1 → truthyStr (id m) = true)
  ∧ handle Samples.laterClock Samples.debugWithM1
      (handle Samples.clock Samples.debugWithM1 emptySubagent)
    = handle Samples.clock Samples.debugWithM1 emptySubagent.
Proof.
  assert (H : ∀ m, m ∈ candidates Samples.debugWithM1 →
                   truthyStr (id m) = true).
  { intros m Hm. simpl in Hm. apply list_elem_of_singleton in Hm as ->. done. }
  split; [exact H|].
  exact (X13_replayed_event_changes_nothing Samples.clock Samples.laterClock
           Samples.debugWithM1 emptySubagent H).
Defined.

(** *** Threads *)

(** X14: an event delivered while one thread is current leaves the
    logs and the seen ids of every other thread exactly as they are;
    rendering the hook for a thread loses nothing of any thread, and a
    thread that has data is not reinitialised; before a thread id is
    assigned the data is kept under [__new__]. *)
Theorem X14_threads_are_isolated now threadId ev (st : Store) :
  (∀ tid, tid ≠ currentThreadId threadId →
     subagentMessagesByThread (deliver now threadId ev st) !! tid
     = subagentMessagesByThread st !! tid
     ∧ subagentMessageIdsByThread (deliver now threadId ev st) !! tid
       = subagentMessageIdsByThread st !! tid)
  ∧ (∀ tid logsOfThread,
       subagentMessagesByThread st !! tid = Some logsOfThread →
       subagentMessagesByThread (render threadId st) !! tid
       = Some logsOfThread)
  ∧ (∀ tid seen,
       subagentMessageIdsByThread st !! tid = Some seen →
       subagentMessageIdsByThread (render threadId st) !! tid = Some seen)
  ∧ is_Some (subagentMessagesByThread (render threadId st)
               !! currentThreadId threadId)
  ∧ render threadId (render threadId st) = render threadId st
  ∧ currentThreadId None = "__new__"%string.
Proof.
  assert (Hm : ∀ tid logsOfThread,
            subagentMessagesByThread st !! tid = Some logsOfThread →
            subagentMessagesByThread (render threadId st) !! tid
            = Some logsOfThread).
  { intros tid l Hl. unfold render. simpl.
    destruct (subagentMessagesByThread st !! currentThreadId threadId) eqn:E;
      [done|].
    rewrite lookup_insert_ne; [done|]. intros <-. congruence. }
  assert (Hi : ∀ tid seen,
            subagentMessageIdsByThread st !! tid = Some seen →
            subagentMessageIdsByThread (render threadId st) !! tid = Some seen).
  { intros tid l Hl. unfold render. simpl.
    destruct (subagentMessageIdsByThread st !! currentThreadId threadId) eqn:E;
      [done|].
    rewrite lookup_insert_ne; [done|]. intros <-. congruence. }
  split_and!; [| exact Hm | exact Hi | | | done].
  - intros tid Htid. unfold deliver, commit, render. simpl.
    rewrite !lookup_insert_ne by done.
    split.
    + destruct (subagentMessagesByThread st !! currentThreadId threadId);
        [done | by rewrite lookup_insert_ne].
    + destruct (subagentMessageIdsByThread st !! currentThreadId threadId);
        [done | by rewrite lookup_insert_ne].
  - unfold render. simpl.
    destruct (subagentMessagesByThread st !! currentThreadId threadId) eqn:E.
    + rewrite E. eauto.
    + rewrite lookup_insert_eq. eauto.
  - unfold render. simpl.
    destruct (subagentMessagesByThread st !! currentThreadId threadId) eqn:E1;
      destruct (subagentMessageIdsByThread st !! currentThreadId threadId)
        eqn:E2; simpl; rewrite ?E1, ?E2, ?lookup_insert_eq; done.
Qed.

(** *** The map of logs and the pool of messages *)

Lemma mapSet_keys {V} k (v : V) (mp : JsMap V) :
  fst <$> mapSet k v mp
  = if mapHas k mp then fst <$> mp else (fst <$> mp) ++ [k].
Proof.
  unfold mapHas. induction mp as [|[k' v'] mp IH]; [done|].
  cbn [mapSet mapGet]. destruct (String.eqb k' k) eqn:E.
  - rewrite !fmap_cons. simpl. by apply String.eqb_eq in E as ->.
  - rewrite !fmap_cons, IH. simpl. by destruct (mapGet k mp).
Qed.

Lemma mapGet_None_keys {V} k (mp : JsMap V) :
  mapGet k mp = None → k ∉ fst <$> mp.
Proof.
  induction mp as [|[k' v'] mp IH]; simpl; [by inversion 2|].
  destruct (String.eqb k' k) eqn:E; [done|]. intros Hk Hin.
  apply String.eqb_neq in E.
  apply elem_of_cons in Hin as [->|Hin]; [done | by apply IH].
Qed.

Lemma mapGet_Some_elem {V} k (v : V) (mp : JsMap V) :
  mapGet k mp = Some v → (k, v) ∈ mp.
Proof.
  induction mp as [|[k' v'] mp IH]; simpl; [done|].
  destruct (String.eqb k' k) eqn:E.
  - apply String.eqb_eq in E as ->. intros [= ->]. apply list_elem_of_here.
  - intros H. right. by apply IH.
Qed.

Lemma elem_mapGet {V} k (v : V) (mp : JsMap V) :
  NoDup (fst <$> mp) → (k, v) ∈ mp → mapGet k mp = Some v.
Proof.
  induction mp as [|[k' v'] mp IH]; simpl; [by inversion 2|].
  rewrite NoDup_cons. intros [Hk' Hnd] Hin.
  apply elem_of_cons in Hin as [[= <- <-]|Hin].
  - by rewrite String.eqb_refl.
  - destruct (String.eqb k' k) eqn:E; [|by apply IH].
    apply String.eqb_eq in E as ->. exfalso. apply Hk'.
    apply list_elem_of_fmap. by exists (k, v).
Qed.

Lemma track_wellKeyed k i msg s : wellKeyed s → wellKeyed (track k i msg s).
Proof.
  intros [Hnd Hne]. unfold wellKeyed, track, mapHas. simpl.
  destruct (mapGet k (subagentMessages s)) as [l|] eqn:Hk; simpl.
  - rewrite Hk. simpl. destruct (findId i l); [done|]. split.
    + rewrite mapSet_keys. unfold mapHas. by rewrite Hk.
    + intros k' l'. destruct (decide (k = k')) as [<-|Hkk].
      * rewrite mapGet_mapSet_eq. intros [= <-]. by destruct l.
      * rewrite mapGet_mapSet_ne by done. apply Hne.
  - rewrite mapGet_mapSet_eq. simpl. split.
    + rewrite !mapSet_keys. unfold mapHas. rewrite mapGet_mapSet_eq, Hk.
      apply NoDup_app. split_and!; [done | | apply NoDup_singleton].
      intros x Hx Hx'. apply list_elem_of_singleton in Hx' as ->.
      by apply mapGet_None_keys in Hk.
    + intros k' l'. destruct (decide (k = k')) as [<-|Hkk].
      * rewrite mapGet_mapSet_eq. by intros [= <-].
      * rewrite !mapGet_mapSet_ne by done. apply Hne.
Qed.

(** X15: after any sequence of events from the empty store, the map
    of logs has one entry per tool call at most and no entry is
    empty; the pool that the message component flattens it into holds
    exactly the messages of the logs. *)
Theorem X15_pool_is_the_logs (evs : list (Clock * StreamEvent)) :
  let s := feed evs emptySubagent in
  NoDup (fst <$> subagentMessages s)
  ∧ (∀ k l, mapGet k (subagentMessages s) = Some l → l ≠ [])
  ∧ (∀ m, m ∈ ChatMessage.allSubagentMsgs (Some (subagentMessages s)) ↔
          ∃ k, m ∈ logs s k)
  ∧ ChatMessage.allSubagentMsgs None = [].
Proof.
  intros s.
  assert (Hwk : wellKeyed s).
  { apply (feed_preserves wellKeyed).
    - intros. by apply track_wellKeyed.
    - split; [apply NoDup_nil_2 | done]. }
  destruct Hwk as [Hnd Hne]. split_and!; [done | done | | done].
  intros m. unfold ChatMessage.allSubagentMsgs, mapValues, logs.
  rewrite elem_of_concat. split.
  - intros (l & Hl & Hm). apply list_elem_of_fmap in Hl as ([k l'] & -> & Hkl).
    exists k. by rewrite (elem_mapGet k l' _ Hnd Hkl).
  - intros (k & Hm).
    destruct (mapGet k (subagentMessages s)) as [l|] eqn:Hk;
      [|by inversion Hm].
    exists l. split; [|done].
    apply list_elem_of_fmap. exists (k, l). split; [done|].
    by apply mapGet_Some_elem.
Qed.

End DemuxInvariants.

(** * Further properties of the session controller *)

Section ControllerSubmissions.

Import JS Chat.

Implicit Types (props : Props).

Lemma lookupField_setField_eq k v fs : lookupField k (setField k v fs) = v.
Proof.
  induction fs as [|[k' v'] fs IH]; simpl.
  - by rewrite String.eqb_refl.
  - destruct (String.eqb k' k) eqn:E; simpl.
    + by rewrite String.eqb_refl.
    + by rewrite E.
Qed.

Lemma lookupField_setField_ne k k' v fs :
  k ≠ k' → lookupField k' (setField k v fs) = lookupField k' fs.
Proof.
  intros Hne. induction fs as [|[k0 v0] fs IH]; simpl.
  - by apply String.eqb_neq in Hne as ->.
  - destruct (String.eqb k0 k) eqn:E; simpl.
    + apply String.eqb_eq in E as ->.
      by apply String.eqb_neq in Hne as ->.
    + by rewrite IH.
Qed.

(** X16: [sendMessage] and [continueStream] submit the assistant's
    configuration with [recursion_limit] set to 100, whatever limit
    the assistant configured, and with every other key as the
    assistant has it; [runSingleStep] submits the assistant's
    configuration as it is, without a limit of its own;
    [resumeInterrupt] and [markCurrentThreadAsResolved] submit no
    configuration. *)
Theorem X16_recursion_limit_is_100
    props uuid text h messages cp rerun optimistic value :
  (∀ o, o ∈ submissions (sendMessage props uuid text)
        ∨ o ∈ submissions (continueStream props h) →
        ∃ cfg, config o = Some cfg
               ∧ lookupField "recursion_limit" cfg = JNum 100
               ∧ ∀ k, k ≠ "recursion_limit"%string →
                      lookupField k cfg
                      = lookupField k (default [] (activeConfig props)))
  ∧ (∀ o, o ∈ submissions (runSingleStep props messages cp rerun optimistic) →
          config o = activeConfig props)
  ∧ (∀ o, o ∈ submissions (resumeInterrupt props value)
          ∨ o ∈ submissions (markCurrentThreadAsResolved props) →
          config o = None).
Proof.
  assert (Hrev : submissions (revalidate props) = []).
  { unfold revalidate. by destruct (onHistoryRevalidate props). }
  unfold sendMessage, continueStream, resumeInterrupt,
    markCurrentThreadAsResolved, submissions in *.
  split_and!.
  - intros o Ho. rewrite !omap_app, !Hrev in Ho. simpl in Ho.
    destruct Ho as [Ho|Ho]; apply list_elem_of_singleton in Ho as ->; simpl;
      (eexists; split; [reflexivity|]; split;
       [apply lookupField_setField_eq
       | intros k Hk; by apply lookupField_setField_ne]).
  - intros o Ho. unfold runSingleStep in Ho.
    destruct cp; simpl in Ho; by apply list_elem_of_singleton in Ho as ->.
  - intros o Ho. rewrite !omap_app, !Hrev in Ho. simpl in Ho.
    destruct Ho as [Ho|Ho]; by apply list_elem_of_singleton in Ho as ->.
Qed.

(** X17: [sendMessage], [continueStream], [resumeInterrupt] and
    [markCurrentThreadAsResolved] each submit exactly once, first, and
    request the refresh of the thread list exactly when the caller
    supplied the callback; [stopStream] submits nothing and requests
    no refresh. *)
Theorem X17_refresh_follows_submit props uuid text h value :
  Forall
    (λ effects,
       (HistoryRevalidate ∈ effects ↔ onHistoryRevalidate props = true)
       ∧ length (submissions effects) = 1
       ∧ ∃ input options, head effects = Some (Submit input options))
    [sendMessage props uuid text; continueStream props h;
     resumeInterrupt props value; markCurrentThreadAsResolved props]
  ∧ submissions stopStream = []
  ∧ HistoryRevalidate ∉ stopStream.
Proof.
  assert (Hop : ∀ input options,
            (HistoryRevalidate ∈ [Submit input options] ++ revalidate props
             ↔ onHistoryRevalidate props = true)
            ∧ length (submissions ([Submit input options] ++ revalidate props))
              = 1
            ∧ ∃ input' options',
                head ([Submit input options] ++ revalidate props)
                = Some (Submit input' options')).
  { intros input options. unfold revalidate.
    destruct (onHistoryRevalidate props); simpl; split_and!; eauto.
    - split; [done|]. intros _. right. apply list_elem_of_here.
    - split; [|done]. intros H. apply list_elem_of_singleton in H.
      discriminate. }
  split_and!.
  - repeat (apply Forall_cons; split; [apply Hop|]). apply Forall_nil_2.
  - done.
  - intros H. apply list_elem_of_singleton in H. discriminate.
Qed.

End ControllerSubmissions.

(** * Further properties of the message component *)

Section MessageView.

Import JS ChatMessage.

(** X18: a subagent is shown expanded until it is toggled; toggling
    flips what [isSubAgentExpanded] answers for that subagent and for
    no other, so toggling twice gives back the answers one had. *)
Theorem X18_toggle_flips_one_subagent (expandedSubAgents : gmap string bool) i :
  isSubAgentExpanded ∅ i = true
  ∧ isSubAgentExpanded (toggleSubAgent i expandedSubAgents) i
    = negb (isSubAgentExpanded expandedSubAgents i)
  ∧ (∀ j, j ≠ i →
          isSubAgentExpanded (toggleSubAgent i expandedSubAgents) j
          = isSubAgentExpanded expandedSubAgents j)
  ∧ (∀ j, isSubAgentExpanded
            (toggleSubAgent i (toggleSubAgent i expandedSubAgents)) j
          = isSubAgentExpanded expandedSubAgents j).
Proof.
  assert (Hflip : ∀ m : gmap string bool,
            isSubAgentExpanded (toggleSubAgent i m) i
            = negb (isSubAgentExpanded m i)).
  { intros m. unfold isSubAgentExpanded, toggleSubAgent.
    rewrite lookup_insert_eq. by destruct (m !! i). }
  assert (Hother : ∀ (m : gmap string bool) j, j ≠ i →
            isSubAgentExpanded (toggleSubAgent i m) j
            = isSubAgentExpanded m j).
  { intros m j Hj. unfold isSubAgentExpanded, toggleSubAgent.
    by rewrite lookup_insert_ne. }
  split_and!; [done | apply Hflip | apply Hother |].
  intros j. destruct (decide (j = i)) as [->|Hj].
  - by rewrite !Hflip, negb_involutive.
  - by rewrite !Hother.
Qed.

(** X19: a tool call gets a [ToolCallBox] exactly when its name is not
    [task], and is listed among the subagents exactly when its name is
    [task] and its [subagent_type] argument is truthy (the comparisons
    with the empty string and with [null] exclude nothing more); so no
    tool call is in both, and a [task] call without a truthy
    [subagent_type] is in neither. *)
Theorem X19_boxes_and_subagents (toolCalls : list ToolCall) :
  (∀ tc, tc ∈ toolCallBoxes toolCalls ↔
         tc ∈ toolCalls ∧ name tc ≠ "task"%string)
  ∧ (∀ sa, sa ∈ subAgents toolCalls ↔
           ∃ tc, tc ∈ toolCalls ∧ name tc = "task"%string
                 ∧ truthy (getProp (args tc) "subagent_type") = true
                 ∧ sa = toSubAgent tc)
  ∧ (∀ tc, tc ∈ toolCallBoxes toolCalls → isSubAgentCall tc = false)
  ∧ length (toolCallBoxes toolCalls) + length (subAgents toolCalls)
    ≤ length toolCalls.
Proof.
  assert (Hsub : ∀ tc, isSubAgentCall tc = true ↔
            name tc = "task"%string
            ∧ truthy (getProp (args tc) "subagent_type") = true).
  { intros tc. unfold isSubAgentCall.
    rewrite !andb_true_iff, bool_decide_eq_true.
    destruct (getProp (args tc) "subagent_type") as [| |b|n|str|l|fs]; simpl;
      tauto. }
  assert (Hbox : ∀ tc, tc ∈ toolCallBoxes toolCalls ↔
            tc ∈ toolCalls ∧ name tc ≠ "task"%string).
  { intros tc. unfold toolCallBoxes. rewrite list_elem_of_omap. split.
    - intros (x & Hx & Hsome). case_bool_decide; [done|].
      injection Hsome as <-. done.
    - intros [Hin Hn]. exists tc. split; [done|].
      by rewrite bool_decide_eq_false_2. }
  split_and!.
  - exact Hbox.
  - intros sa. unfold subAgents. rewrite list_elem_of_fmap. split.
    + intros (tc & -> & Htc). apply elem_of_List_filter in Htc as [Hin Hp].
      apply Hsub in Hp as [? ?]. eauto.
    + intros (tc & Hin & Hn & Ht & ->). exists tc. split; [done|].
      apply elem_of_List_filter. split; [done|]. by apply Hsub.
  - intros tc Htc. apply Hbox in Htc as [_ Hn].
    apply not_true_is_false. rewrite Hsub. tauto.
  - unfold subAgents, toolCallBoxes. rewrite length_fmap. clear Hbox.
    induction toolCalls as [|tc l IH]; simpl in *; [lia|].
    unfold omap in IH.
    destruct (isSubAgentCall tc) eqn:Hp.
    + apply Hsub in Hp as [Hn _]. rewrite bool_decide_eq_true_2 by done.
      simpl. lia.
    + case_bool_decide; simpl; lia.
Qed.

End MessageView.

(** * Further properties of the tool-call reconstruction *)

Section ReconstructOutcomes.

Import JS ChatMessage.

Variable JSON_stringify : JValue → string.
Variable JSON_stringify_pretty : JValue → string.
Variable ToString : JValue → string.

Local Abbreviation itemText := (itemText JSON_stringify ToString).
Local Abbreviation normalizeContent :=
  (normalizeContent JSON_stringify JSON_stringify_pretty ToString).
Local Abbreviation toolCallOf :=
  (toolCallOf JSON_stringify JSON_stringify_pretty ToString).
Local Abbreviation subagentToolCalls :=
  (subagentToolCalls JSON_stringify JSON_stringify_pretty ToString).

Implicit Types (msgs : list Chat.Message) (tc : Chat.ToolCallRequest).

Lemma mapM_app {A B} (g : A → option B) (l1 l2 : list A) :
  mapM g (l1 ++ l2) = k1 ← mapM g l1; k2 ← mapM g l2; Some (k1 ++ k2).
Proof.
  induction l1 as [|x l1 IH]; simpl.
  - by destruct (mapM g l2).
  - destruct (g x); simpl; [|done]. rewrite IH.
    destruct (mapM g l1); simpl; [|done]. by destruct (mapM g l2).
Qed.

Lemma push_requests_mapM {A B} (g : A → option B) (xs : list A) acc :
  foldl (λ acc x, calls ← acc; r ← g x; Some (calls ++ [r])) acc xs
  = calls ← acc; rs ← mapM g xs; Some (calls ++ rs).
Proof.
  revert acc. induction xs as [|x xs IH]; intros acc; simpl.
  - destruct acc; simpl; [by rewrite app_nil_r | done].
  - rewrite IH. destruct acc as [calls|]; simpl; [|done].
    destruct (g x) as [r|]; simpl; [|done].
    destruct (mapM g xs); simpl; [|done]. by rewrite <- app_assoc.
Qed.

(** The two loops, as one traversal of the requests. *)
Lemma subagentToolCalls_mapM msgs :
  subagentToolCalls msgs = mapM (toolCallOf (toolResults msgs)) (requests msgs).
Proof.
  unfold ChatMessage.subagentToolCalls.
  generalize (toolCallOf (toolResults msgs)). intros g.
  assert (H : ∀ acc,
            foldl (λ acc msg,
                     foldl (λ acc tc,
                              calls ← acc; r ← g tc; Some (calls ++ [r]))
                           acc (requestsOf msg))
                  acc msgs
            = calls ← acc; rs ← mapM g (requests msgs); Some (calls ++ rs)).
  { induction msgs as [|m msgs IH]; intros acc; simpl.
    - destruct acc; simpl; [by rewrite app_nil_r | done].
    - rewrite IH, push_requests_mapM.
      change (requests (m :: msgs)) with (requestsOf m ++ requests msgs).
      rewrite mapM_app.
      destruct acc as [calls|], (mapM g (requestsOf m)) as [k1|],
        (mapM g (requests msgs)) as [k2|]; simpl; try done.
      by rewrite app_assoc. }
  rewrite H. simpl. by destruct (mapM g (requests msgs)).
Qed.

Lemma itemText_None item :
  itemText item = None ↔ item = JUndefined ∨ item = JNull.
Proof.
  destruct item; simpl; split; try done; try (by intros [|]); auto.
Qed.

Lemma normalizeContent_None c :
  normalizeContent c = None ↔
  ∃ items item, c = JArr items ∧ item ∈ items
                ∧ (item = JUndefined ∨ item = JNull).
Proof.
  destruct c as [| |b|n|str|items|fields]; simpl;
    try (split; [done | by intros (? & ? & ? & _)]).
  - destruct b; split; try done; by intros (? & ? & ? & _).
  - destruct (n =? 0)%Z; split; try done; by intros (? & ? & ? & _).
  - destruct (mapM itemText items) as [parts|] eqn:Hparts; simpl.
    + split; [done|]. intros (items' & item & [= <-] & Hin & Hitem).
      assert (Hnone : mapM itemText items = None).
      { apply mapM_None, Exists_exists. exists item.
        split; [done|]. by apply itemText_None. }
      congruence.
    + split; [|done]. intros _.
      apply mapM_None, Exists_exists in Hparts as (item & Hin & Hitem).
      exists items, item. split_and!; [done | done |].
      by apply itemText_None.
Qed.

Lemma toolCallOf_None msgs tc :
  toolCallOf (toolResults msgs) tc = None ↔
  ∃ tr, resultFor msgs tc = Some tr ∧ normalizeContent (Chat.content tr) = None.
Proof.
  unfold ChatMessage.toolCallOf. rewrite toolResults_resultFor.
  destruct (resultFor msgs tc) as [tr|]; simpl.
  - destruct (normalizeContent (Chat.content tr)) eqn:E; simpl.
    + split; [done|]. intros (tr' & [= <-] & H). congruence.
    + split; [eauto | done].
  - split; [done | by intros (? & ? & _)].
Qed.

Lemma toolCallOf_Some msgs tc r :
  toolCallOf (toolResults msgs) tc = Some r →
  id r = Chat.tc_id tc
  ∧ name r ≠ ""%string
  ∧ truthy (args r) = true
  ∧ (status r = pending ∧ result r = None ∧ resultFor msgs tc = None
     ∨ status r = completed ∧ is_Some (resultFor msgs tc)).
Proof.
  unfold ChatMessage.toolCallOf. rewrite toolResults_resultFor.
  destruct (resultFor msgs tc) as [tr|]; simpl.
  - destruct (normalizeContent (Chat.content tr)); simpl; [|done].
    intros [= <-]. simpl. split_and!; [done | by apply orStr_nonempty | | eauto].
    by destruct (truthy (Chat.tc_args tc)) eqn:E.
  - intros [= <-]. simpl. split_and!; [done | by apply orStr_nonempty | | auto].
    by destruct (truthy (Chat.tc_args tc)) eqn:E.
Qed.

(** X20: when the reconstruction yields records, there is one per
    tool-call request; each has the id of its request, a non-empty
    name, truthy arguments, and status pending or completed, never
    error or interrupted; a pending record has no result and no
    tool-role message refers to its request, and a completed one has
    such a message. *)
Theorem X20_records_are_pending_or_completed msgs records :
  subagentToolCalls msgs = Some records →
  length records = length (requests msgs)
  ∧ Forall2
      (λ tc r,
         id r = Chat.tc_id tc
         ∧ name r ≠ ""%string
         ∧ truthy (args r) = true
         ∧ (status r = pending ∧ result r = None ∧ resultFor msgs tc = None
            ∨ status r = completed ∧ is_Some (resultFor msgs tc)))
      (requests msgs) records.
Proof.
  rewrite subagentToolCalls_mapM. intros H. apply mapM_Some_1 in H.
  split; [symmetry; by eapply Forall2_length|].
  eapply Forall2_impl; [exact H|]. intros tc r. apply toolCallOf_Some.
Qed.

(** X21: the reconstruction throws exactly when some request is
    answered by a tool-role message whose content is an array with an
    element that is [null] or [undefined]; in every other case it
    yields records. *)
Theorem X21_reconstruction_throws_iff msgs :
  subagentToolCalls msgs = None ↔
  ∃ tc tr items item,
    tc ∈ requests msgs ∧ resultFor msgs tc = Some tr
    ∧ Chat.content tr = JArr items ∧ item ∈ items
    ∧ (item = JUndefined ∨ item = JNull).
Proof.
  rewrite subagentToolCalls_mapM, mapM_None, Exists_exists. split.
  - intros (tc & Htc & Hnone).
    apply toolCallOf_None in Hnone as (tr & Htr & Hc).
    apply normalizeContent_None in Hc as (items & item & Hi & Hin & Hitem).
    exists tc, tr, items, item. done.
  - intros (tc & tr & items & item & Htc & Htr & Hc & Hin & Hitem).
    exists tc. split; [done|]. apply toolCallOf_None. exists tr.
    split; [done|]. apply normalizeContent_None. eauto.
Qed.

End ReconstructOutcomes.

Lemma X20_records_are_pending_or_completed_witness :
  let msgs := [Samples.aiWithRequest; Samples.toolAnswer JS.JUndefined] in
  ∃ records,
    ChatMessage.subagentToolCalls Samples.stringify Samples.stringify
      Samples.stringify msgs = Some records
    ∧ length records = length (ChatMessage.requests msgs)
    ∧ Forall (λ r, ChatMessage.status r = ChatMessage.completed) records.
Proof.
  intros msgs. eexists. split; [reflexivity|].
  destruct (X20_records_are_pending_or_completed Samples.stringify
              Samples.stringify Samples.stringify msgs _ eq_refl) as [Hlen _].
  split; [exact Hlen|]. by repeat constructor.
Defined.

(** * Properties of the questions panel *)

Section Sorting.

Import QuestionsPanel.

Context {A : Type} (cmp : A → A → comparison).

Lemma insertBy_Permutation x (l : list A) : insertBy cmp x l ≡ₚ x :: l.
Proof.
  induction l as [|y l IH]; simpl; [done|].
  destruct (cmp x y); try done.
  by rewrite IH, Permutation_swap.
Qed.

Lemma sortBy_Permutation (l : list A) : sortBy cmp l ≡ₚ l.
Proof.
  induction l as [|x l IH]; simpl; [done|].
  by rewrite insertBy_Permutation, IH.
Qed.

(** For a comparator that orders its arguments consistently, the
    result is sorted. *)
Hypothesis cmp_total : ∀ x y, cmp x y = Gt → cmp y x ≠ Gt.
Hypothesis cmp_trans :
  ∀ x y z, cmp x y ≠ Gt → cmp y z ≠ Gt → cmp x z ≠ Gt.

Lemma insertBy_sorted x (l : list A) :
  StronglySorted (λ a b, cmp a b ≠ Gt) l →
  StronglySorted (λ a b, cmp a b ≠ Gt) (insertBy cmp x l).
Proof.
  induction 1 as [|y l Hl IH Hy]; simpl; [repeat constructor|].
  destruct (cmp x y) eqn:Hxy.
  - constructor; [by constructor|]. constructor; [by rewrite Hxy|].
    eapply Forall_impl; [exact Hy|]. intros z Hz.
    apply (cmp_trans x y z); [by rewrite Hxy | done].
  - constructor; [by constructor|]. constructor; [by rewrite Hxy|].
    eapply Forall_impl; [exact Hy|]. intros z Hz.
    apply (cmp_trans x y z); [by rewrite Hxy | done].
  - constructor; [done|]. rewrite insertBy_Permutation.
    constructor; [by apply cmp_total | done].
Qed.

Lemma sortBy_sorted (l : list A) :
  StronglySorted (λ a b, cmp a b ≠ Gt) (sortBy cmp l).
Proof.
  induction l as [|x l IH]; simpl; [constructor | by apply insertBy_sorted].
Qed.

End Sorting.

Section PanelFacts.

Import JS Questions QuestionsPanel.

Implicit Types (q c : Question) (qs : list Question).

(** *** The question that is surfaced *)

Lemma compareUrgency_le a b :
  compareUrgency a b ≠ Gt ↔
  (priorityOrder (priority a) < priorityOrder (priority b))%Z
  ∨ (priorityOrder (priority a) = priorityOrder (priority b)
     ∧ QArith_base.Qle (confidence a) (confidence b)).
Proof.
  unfold compareUrgency.
  destruct (Z.compare_spec (priorityOrder (priority a))
                           (priorityOrder (priority b))) as [He|Hl|Hg].
  - rewrite <- QArith_base.Qle_alt. split; [auto|].
    intros [?|[_ ?]]; [lia | done].
  - split; [auto | done].
  - split; [done|]. intros [?|[? _]]; lia.
Qed.

Lemma compareUrgency_total a b :
  compareUrgency a b = Gt → compareUrgency b a ≠ Gt.
Proof.
  intros Hgt. apply compareUrgency_le.
  assert (Hn : ¬ compareUrgency a b ≠ Gt) by (intros H; by apply H).
  rewrite compareUrgency_le in Hn.
  destruct (Z.compare_spec (priorityOrder (priority b))
                           (priorityOrder (priority a))) as [He|Hl|Hg].
  - right. split; [done|].
    destruct (QArith_base.Qlt_le_dec (confidence a) (confidence b)) as [Hlt|Hle];
      [|done].
    exfalso. apply Hn. right. split; [done|].
    by apply QArith_base.Qlt_le_weak.
  - by left.
  - exfalso. apply Hn. by left.
Qed.

Lemma compareUrgency_trans a b c :
  compareUrgency a b ≠ Gt → compareUrgency b c ≠ Gt → compareUrgency a c ≠ Gt.
Proof.
  rewrite !compareUrgency_le.
  intros [H1|[H1 H1']] [H2|[H2 H2']]; try (left; lia).
  right. split; [lia|]. by eapply QArith_base.Qle_trans.
Qed.

Lemma priorityOrder_blocking p :
  (0 ≤ priorityOrder p)%Z ∧ (priorityOrder p = 0%Z ↔ p = blocking).
Proof. destruct p; simpl; split; try lia; split; done. Qed.

(** X22: the panel surfaces no question exactly when none is pending;
    otherwise it surfaces a pending question of the set that no
    pending question precedes: none has a lower priority rank, and none
    of the same rank has a lower confidence. So whenever a blocking
    question is pending, the surfaced question is blocking. *)
Theorem X22_surfaced_question_is_most_urgent qs :
  (currentQuestion qs = None ↔ ∀ q, q ∈ qs → status q ≠ pending)
  ∧ (∀ c, currentQuestion qs = Some c →
       c ∈ qs ∧ status c = pending
       ∧ (∀ q, q ∈ qs → status q = pending →
            (priorityOrder (priority c) < priorityOrder (priority q))%Z
            ∨ (priorityOrder (priority c) = priorityOrder (priority q)
               ∧ QArith_base.Qle (confidence c) (confidence q)))
       ∧ ((∃ q, q ∈ qs ∧ status q = pending ∧ priority q = blocking) →
          priority c = blocking)).
Proof.
  assert (Hpend : ∀ q, q ∈ pendingOf qs ↔ q ∈ qs ∧ status q = pending).
  { intros q. unfold pendingOf. rewrite elem_of_List_filter.
    by rewrite bool_decide_eq_true. }
  assert (Hmin : ∀ c, currentQuestion qs = Some c →
            c ∈ qs ∧ status c = pending
            ∧ ∀ q, q ∈ qs → status q = pending → compareUrgency c q ≠ Gt).
  { intros c Hc. unfold currentQuestion in Hc.
    case_bool_decide as Hlen; [done|].
    pose proof (sortBy_sorted compareUrgency compareUrgency_total
                  compareUrgency_trans (pendingOf qs)) as Hsorted.
    pose proof (sortBy_Permutation compareUrgency (pendingOf qs)) as Hperm.
    apply head_Some in Hc as [rest Hrest]. rewrite Hrest in Hsorted, Hperm.
    assert (Hcin : c ∈ pendingOf qs).
    { rewrite <- Hperm. apply list_elem_of_here. }
    apply Hpend in Hcin as [Hcin Hcp]. split_and!; [done | done |].
    intros q Hq Hqp.
    assert (Hqin : q ∈ c :: rest) by (rewrite Hperm; by apply Hpend).
    apply StronglySorted_cons in Hsorted as [Hall _].
    apply elem_of_cons in Hqin as [->|Hqin].
    - apply compareUrgency_le. right. split; [done|].
      apply QArith_base.Qle_refl.
    - by eapply Forall_forall in Hall. }
  split.
  - unfold currentQuestion. case_bool_decide as Hlen.
    + split; [|done]. intros _ q Hq Hp.
      assert (Hin : q ∈ pendingOf qs) by by apply Hpend.
      destruct (pendingOf qs); [by inversion Hin | done].
    + split.
      * intros Hnone. exfalso. apply Hlen.
        rewrite <- (Permutation_length
                      (sortBy_Permutation compareUrgency (pendingOf qs))).
        by destruct (sortBy compareUrgency (pendingOf qs)).
      * intros Hno. exfalso. apply Hlen.
        destruct (pendingOf qs) as [|q l]; [done|].
        destruct (proj1 (Hpend q) (list_elem_of_here _ _)) as [Hin Hp].
        by apply Hno in Hin.
  - intros c Hc. destruct (Hmin c Hc) as (Hin & Hp & Hle).
    split_and!; [done | done | |].
    + intros q Hq Hqp. apply compareUrgency_le. by apply Hle.
    + intros (q & Hq & Hqp & Hb).
      specialize (Hle q Hq Hqp). apply compareUrgency_le in Hle.
      rewrite Hb in Hle. simpl in Hle.
      apply priorityOrder_blocking.
      pose proof (proj1 (priorityOrder_blocking (priority c))). lia.
Qed.

(** *** Splitting a label *)

Lemma split_nonempty sep str : split sep str ≠ [].
Proof.
  induction str as [|a str IH]; simpl; [done|].
  destruct (Ascii.eqb a sep); [done|]. by destruct (split sep str).
Qed.

(** [split] is undone by joining with the separator; it yields at
    least one word, one more than there are separators, and no word
    holds the separator. *)
Lemma split_then_join sep str :
  String.concat (String sep EmptyString) (split sep str) = str
  ∧ split sep str ≠ []
  ∧ ∀ w, w ∈ split sep str → ∀ n, String.get n w ≠ Some sep.
Proof.
  split_and!.
  - induction str as [|a str IH]; simpl; [done|].
    destruct (Ascii.eqb a sep) eqn:E.
    + apply Ascii.eqb_eq in E as ->.
      pose proof (split_nonempty sep str) as Hne.
      destruct (split sep str) as [|w ws]; [done|].
      simpl in *. by rewrite IH.
    + pose proof (split_nonempty sep str) as Hne.
      destruct (split sep str) as [|w ws]; [done|].
      simpl in *. destruct ws; simpl in *; by rewrite <- IH.
  - apply split_nonempty.
  - induction str as [|a str IH]; simpl.
    + intros w Hw. apply list_elem_of_singleton in Hw as ->. by intros [|n].
    + destruct (Ascii.eqb a sep) eqn:E.
      * intros w Hw. apply elem_of_cons in Hw as [->|Hw]; [by intros [|n]|].
        by apply IH.
      * pose proof (split_nonempty sep str) as Hne.
        destruct (split sep str) as [|w' ws]; [done|].
        intros w Hw. apply elem_of_cons in Hw as [->|Hw].
        -- intros [|n]; simpl.
           ++ intros [= ->]. by rewrite Ascii.eqb_refl in E.
           ++ apply IH. apply list_elem_of_here.
        -- apply IH. by right.
Qed.

(** *** The subject of a question *)

(** X23: the subject of a question is the subject the agent supplied
    when that is not empty; otherwise it is one of seven fixed labels
    or the first skill label of the question with its words
    capitalised and joined by spaces, and it is [General] when the
    file path and the text match no keyword and there is no skill
    label. *)
Theorem X23_subject_is_supplied_or_known
    (toLowerCase capitalize : string → string) q :
  let result := detectSubject toLowerCase capitalize q in
  (∀ given, subject q = Some given → given ≠ ""%string → result = given)
  ∧ ((∃ given, subject q = Some given ∧ given ≠ ""%string ∧ result = given)
     ∨ result ∈ ["API Design"; "Testing Strategy"; "Performance";
                 "Authentication"; "UI Components"; "Data Model";
                 "General"]%string
     ∨ ∃ label rest,
         skillLabels (context q) = Some (label :: rest)
         ∧ result
           = String.concat " " (capitalize <$> split "_"%char label)).
Proof.
  intros result. subst result. unfold detectSubject. split.
  - intros given Hs Hne. rewrite Hs. simpl.
    by apply String.eqb_neq in Hne as ->.
  - destruct (truthyStr (subject q)) eqn:Ht.
    { left. destruct (subject q) as [given|]; [|done].
      exists given. split_and!; [done | | done].
      simpl in Ht. by apply negb_true_iff, String.eqb_neq in Ht. }
    right.
    repeat match goal with
           | |- context [if ?b then _ else _] =>
               destruct b; [left; set_solver|]
           end.
    destruct (skillLabels (context q)) as [[|label rest]|];
      [left; set_solver | right; eauto | left; set_solver].
Qed.

End PanelFacts.

Section GroupFacts.

Import JS Questions QuestionsPanel.

Variable detectSubject : Question → string.

Local Abbreviation groupsMap := (groupsMap detectSubject).
Local Abbreviation groupQuestions := (groupQuestions detectSubject).
Local Abbreviation groupedQuestions := (groupedQuestions detectSubject).

Implicit Types (q : Question) (qs : list Question) (g : QuestionGroup).

Local Abbreviation inSubject k := (λ q, bool_decide (detectSubject q = k)).

Lemma groupsMap_snoc qs q :
  groupsMap (qs ++ [q])
  = mapSet (detectSubject q)
      (default [] (mapGet (detectSubject q) (groupsMap qs)) ++ [q])
      (groupsMap qs).
Proof. unfold QuestionsPanel.groupsMap. by rewrite foldl_app. Qed.

Lemma concat_mapSet_snoc {V} k (x : V) (mp : JsMap (list V)) :
  concat (snd <$> mapSet k (default [] (mapGet k mp) ++ [x]) mp)
  ≡ₚ concat (snd <$> mp) ++ [x].
Proof.
  induction mp as [|[k' v'] mp IH]; [done|].
  cbn [mapSet mapGet]. destruct (String.eqb k' k) eqn:E.
  - rewrite !fmap_cons. simpl.
    rewrite <- !app_assoc. apply Permutation_app_head, Permutation_app_comm.
  - rewrite !fmap_cons. simpl. by rewrite IH, app_assoc.
Qed.

Lemma groupsMap_invariant qs :
  NoDup (fst <$> groupsMap qs)
  ∧ (∀ k, default [] (mapGet k (groupsMap qs)) = List.filter (inSubject k) qs)
  ∧ (∀ k v, mapGet k (groupsMap qs) = Some v → v ≠ [])
  ∧ concat (snd <$> groupsMap qs) ≡ₚ qs.
Proof.
  induction qs as [|q qs (Hnd & Hget & Hne & Hperm)] using rev_ind.
  - split_and!; [apply NoDup_nil_2 | done | done | done].
  - rewrite groupsMap_snoc. split_and!.
    + rewrite mapSet_keys. unfold mapHas.
      destruct (mapGet (detectSubject q) (groupsMap qs)) eqn:E; [done|].
      apply NoDup_app. split_and!; [done | | apply NoDup_singleton].
      intros x Hx Hx'. apply list_elem_of_singleton in Hx' as ->.
      by apply mapGet_None_keys in E.
    + intros k. rewrite List.filter_app. simpl.
      destruct (decide (detectSubject q = k)) as [<-|Hk].
      * rewrite mapGet_mapSet_eq, bool_decide_eq_true_2 by done. simpl.
        by rewrite Hget.
      * rewrite mapGet_mapSet_ne, bool_decide_eq_false_2 by done.
        by rewrite app_nil_r.
    + intros k v. destruct (decide (detectSubject q = k)) as [<-|Hk].
      * rewrite mapGet_mapSet_eq. intros [= <-].
        by destruct (default [] _).
      * rewrite mapGet_mapSet_ne by done. apply Hne.
    + by rewrite concat_mapSet_snoc, Hperm.
Qed.

Lemma concat_fmap_Permutation {B C} (f : B → list C) (l l' : list B) :
  l ≡ₚ l' → concat (f <$> l) ≡ₚ concat (f <$> l').
Proof.
  induction 1 as [|x l l' _ IH|x y l|l l' l'' _ IH1 _ IH2]; simpl.
  - done.
  - by rewrite IH.
  - rewrite !app_assoc. apply Permutation_app_tail, Permutation_app_comm.
  - by rewrite IH1.
Qed.

Lemma compareGroups_le (a b : QuestionGroup) :
  compareGroups a b ≠ Gt ↔
  (hasBlocking a = true ∧ hasBlocking b = false)
  ∨ (hasBlocking a = hasBlocking b ∧ count b ≤ count a).
Proof.
  unfold compareGroups.
  destruct (hasBlocking a), (hasBlocking b); simpl;
    try (split; [auto | done]).
  - rewrite Z.compare_gt_iff. split.
    + intros H. right. split; [done | lia].
    + intros [[_ ?]|[_ ?]]; [done | lia].
  - split; [done|]. intros [[? _]|[? _]]; done.
  - rewrite Z.compare_gt_iff. split.
    + intros H. right. split; [done | lia].
    + intros [[? _]|[_ ?]]; [done | lia].
Qed.

Lemma compareGroups_total (a b : QuestionGroup) :
  compareGroups a b = Gt → compareGroups b a ≠ Gt.
Proof.
  intros Hgt. assert (Hn : ¬ compareGroups a b ≠ Gt) by (intros H; by apply H).
  rewrite compareGroups_le in *.
  destruct (hasBlocking a), (hasBlocking b);
    try (left; done); try (exfalso; apply Hn; left; done);
    right; (split; [done|]);
    destruct (decide (count a ≤ count b)); try done;
    exfalso; apply Hn; right; split; [done | lia | done | lia].
Qed.

Lemma compareGroups_trans (a b c : QuestionGroup) :
  compareGroups a b ≠ Gt → compareGroups b c ≠ Gt → compareGroups a c ≠ Gt.
Proof.
  rewrite !compareGroups_le.
  intros [[H1 H1']|[H1 H1']] [[H2 H2']|[H2 H2']]; try congruence.
  - left. split; [done | congruence].
  - left. split; congruence.
  - right. split; [congruence | lia].
Qed.

(** The groups before sorting. *)
Lemma groups_of_map qs g :
  g ∈ groupQuestions qs →
  ∃ k v, mapGet k (groupsMap qs) = Some v
         ∧ g = {| g_subject := k; g_questions := v; count := length v |}.
Proof.
  unfold QuestionsPanel.groupQuestions. rewrite sortBy_Permutation.
  intros Hg. apply list_elem_of_fmap in Hg as ([k v] & -> & Hkv).
  exists k, v. split; [|done].
  apply elem_mapGet; [apply groupsMap_invariant | done].
Qed.

Lemma groupQuestions_Permutation qs :
  concat (g_questions <$> groupQuestions qs) ≡ₚ qs.
Proof.
  unfold QuestionsPanel.groupQuestions.
  rewrite (concat_fmap_Permutation g_questions _ _ (sortBy_Permutation _ _)).
  rewrite <- list_fmap_compose.
  destruct (groupsMap_invariant qs) as (_ & _ & _ & Hperm).
  etrans; [|exact Hperm].
  apply reflexive_eq. f_equal.
Qed.

(** X24: [groupQuestions] splits the questions by subject: the groups
    together hold exactly the given questions, no two groups have the
    same subject, and the group of a subject holds all the questions
    of that subject, in the order given, with [count] their number,
    which is not zero. A group with a blocking question comes before
    every group without one, and among groups that agree on that, a
    larger group comes before a smaller one. *)
Theorem X24_groups_partition_by_subject qs :
  let groups := groupQuestions qs in
  concat (g_questions <$> groups) ≡ₚ qs
  ∧ NoDup (g_subject <$> groups)
  ∧ (∀ g, g ∈ groups →
          g_questions g
          = List.filter (λ q, bool_decide (detectSubject q = g_subject g)) qs
          ∧ count g = length (g_questions g)
          ∧ 0 < count g)
  ∧ (∀ before a after b,
       groups = before ++ a :: after → b ∈ after →
       (hasBlocking a = true ∧ hasBlocking b = false)
       ∨ (hasBlocking a = hasBlocking b ∧ count b ≤ count a)).
Proof.
  intros groups. split_and!.
  - apply groupQuestions_Permutation.
  - subst groups. unfold QuestionsPanel.groupQuestions.
    rewrite sortBy_Permutation, <- list_fmap_compose.
    destruct (groupsMap_invariant qs) as (Hnd & _).
    erewrite list_fmap_ext; [exact Hnd|]. by intros i [k v] _.
  - intros g Hg. apply groups_of_map in Hg as (k & v & Hkv & ->). simpl.
    destruct (groupsMap_invariant qs) as (_ & Hget & Hne & _).
    specialize (Hget k). rewrite Hkv in Hget. simpl in Hget.
    split_and!; [done | done |].
    specialize (Hne k v Hkv). destruct v; [done | simpl; lia].
  - intros before a after b Hgroups Hb.
    pose proof (sortBy_sorted compareGroups compareGroups_total
                  compareGroups_trans
                  ((λ e : string * list Question,
                      {| g_subject := e.1; g_questions := e.2;
                         count := length e.2 |}) <$> groupsMap qs))
      as Hsorted.
    fold (groupQuestions qs) in Hsorted. fold groups in Hsorted.
    rewrite Hgroups in Hsorted.
    apply StronglySorted_app_1_r, StronglySorted_cons in Hsorted as [Hall _].
    apply compareGroups_le. by eapply Forall_forall in Hall.
Qed.

(** X25: the groups shown as up next hold exactly the pending
    questions whose id is not the id of the surfaced question, each
    once; so the surfaced question is in none of them, and neither is
    any question that is not pending. *)
Theorem X25_up_next_excludes_surfaced qs :
  concat (g_questions <$> groupedQuestions qs)
  ≡ₚ List.filter
       (λ q, bool_decide (status q = pending)
             && match currentQuestion qs with
                | Some c => negb (bool_decide (id q = id c))
                | None => true
                end)
       qs
  ∧ (∀ g q, g ∈ groupedQuestions qs → q ∈ g_questions g →
            q ∈ qs ∧ status q = pending
            ∧ ∀ c, currentQuestion qs = Some c → id q ≠ id c).
Proof.
  assert (Hperm :
    concat (g_questions <$> groupedQuestions qs)
    ≡ₚ List.filter
         (λ q, bool_decide (status q = pending)
               && match currentQuestion qs with
                  | Some c => negb (bool_decide (id q = id c))
                  | None => true
                  end)
         qs).
  { unfold QuestionsPanel.groupedQuestions.
    rewrite groupQuestions_Permutation. unfold pendingOf.
    apply reflexive_eq. generalize (currentQuestion qs). intros cur.
    induction qs as [|q l IH]; [done|]. simpl.
    destruct (bool_decide (status q = pending)); simpl; [|done].
    destruct (match cur with Some _ => _ | None => _ end); by rewrite IH. }
  split; [exact Hperm|].
  intros g q Hg Hq.
  assert (Hin : q ∈ concat (g_questions <$> groupedQuestions qs)).
  { apply elem_of_concat. exists (g_questions g). split; [|done].
    by apply list_elem_of_fmap_2. }
  rewrite Hperm in Hin. apply elem_of_List_filter in Hin as [Hin Hp].
  apply andb_true_iff in Hp as [Hp Hc]. apply bool_decide_eq_true in Hp.
  split_and!; [done | done |].
  intros c Hcur. rewrite Hcur in Hc.
  by apply negb_true_iff, bool_decide_eq_false in Hc.
Qed.

End GroupFacts.
